(** * Recursive algorithms under load: engine, dispatcher and statistics

    A shallow embedding of [backend/recursive_algorithm.py] (the class
    [RecursiveAlgorithms]) and of [backend/optimization.py] (the class
    [OptimizedRecursion]), followed by the properties the design document
    states about them.

    Conventions of the embedding.
    - Python integers are [Z]; they never wrap.
    - A Python exception is a value of [exn]; a call that may raise returns
      [exec A].  [try]/[except] is a match on that value.
    - The interpreter's limit on nested calls is part of the model where the
      program recurses as deep as its input says with no test of its own, in
      [generate_deep_tree]: a host gives the limit and the depth of the stack
      at a dispatch.  The routines of the engine test their own depth; they
      are modelled on a stack with room for them, and what is stated of them
      either holds whatever the interpreter allows (it says what a result is
      when there is one) or keeps the nesting to the 500 calls the dispatcher
      itself treats as safe.
    - Wall-clock readings and the allocation tracer belong to the host; they
      are read from a [host] record, and the number of clock readings made so
      far is part of the dispatcher's state.  Durations are rationals; the
      rounding of Python floats is not modelled. *)

From Stdlib Require Import ZArith List String Bool Lia QArith Qminmax.
From Stdlib Require Import DecimalString.
From Stdlib Require Import FMapAVL FMapFacts OrderedTypeEx.
Import ListNotations.

Local Open Scope string_scope.
Local Open Scope Z_scope.

(** ** Exceptions and results *)

Inductive exn : Type :=
| ValueError (msg : string)
| RecursionError (msg : string)
| AttributeError (msg : string)
| IndexError (msg : string).

(** [str(e)] for an exception built from one message. *)
Definition exn_message (e : exn) : string :=
  match e with
  | ValueError m | RecursionError m | AttributeError m | IndexError m => m
  end.

(** [isinstance(e, RecursionError)]: which [except] clause catches [e]. *)
Definition is_recursion_error (e : exn) : bool :=
  match e with
  | RecursionError _ => true
  | _ => false
  end.

Inductive exec (A : Type) : Type :=
| Return (a : A)
| Raise (e : exn).
Arguments Return {A} a.
Arguments Raise {A} e.

Definition bind {A B : Type} (m : exec A) (k : A -> exec B) : exec B :=
  match m with
  | Return a => k a
  | Raise e => Raise e
  end.

Notation "x <- m ;; k" := (bind m (fun x => k))
  (at level 61, m at next level, right associativity).

(** [str(n)] for an integer, as an f-string prints it. *)
Definition str_int (n : Z) : string := NilZero.string_of_int (Z.to_int n).

(** [range(lo, hi, step)] for a positive [step]. *)
Definition range_step (lo hi step : Z) : list Z :=
  map (fun i => lo + step * Z.of_nat i)
      (seq 0 (Z.to_nat ((hi - lo + step - 1) / step))).

(** [range(lo, hi)]. *)
Definition range (lo hi : Z) : list Z :=
  map (fun i => lo + Z.of_nat i) (seq 0 (Z.to_nat (hi - lo))).

(** What [sys._getframe(1).f_back.f_back.f_code.co_names] finds. *)
Inductive frame_reading : Type :=
| NoCaller
    (** the caller is the bottom of the stack: its [f_back] is [None], and
        [None.f_back] fails *)
| NoGrandCaller
    (** the caller's caller is the bottom of the stack: [f_back.f_back] is
        [None], and [None.f_code] fails *)
| Names (count : Z)
    (** the number of names of the code object three frames up ([0] when
        [sys] has no [_getframe]) *).

(** The part of the host a call can observe. *)
Record host : Type := {
  (** [sys.getrecursionlimit()]: the greatest depth of the stack of calls the
      interpreter allows *)
  recursion_limit : Z;
  (** the depth of the stack, as the interpreter counts it against the
      limit, while the body of a dispatch runs: the frames in use, that of
      [process_recursive_task] included *)
  stack_depth : Z;
  (** the message of the [RecursionError] the interpreter raises itself when
      a call would take the stack beyond the limit *)
  stack_overflow : string;
  (** the reading of the frame check of [fibonacci_naive] in a call that has
      [level] calls of itself below it on the stack *)
  frame_names : nat -> frame_reading;
  (** the [k]-th reading of [time.time()] *)
  clock : nat -> Q;
  (** the peak reported by [tracemalloc.get_traced_memory()] for the request
      with the given id *)
  traced_peak : Z -> Z
}.

(** ** Trees and grids *)

(** A tree node is a dict; only the keys ['value'] and ['children'] are ever
    read.  [None] stands for an absent key. *)
#[warnings="-register-all"] Inductive tree : Type :=
| Dict (value : option string) (children : option (list tree)).

(** [node.get('value')]: the label, or Python's [None]. *)
Definition get_value (node : tree) : option string :=
  match node with Dict v _ => v end.

(** [node.get('children', [])]. *)
Definition get_children (node : tree) : list tree :=
  match node with
  | Dict _ (Some cs) => cs
  | Dict _ None => []
  end.

(** Truth value of a dict: false exactly for the empty one. *)
Definition truthy (node : tree) : bool :=
  match node with
  | Dict None None => false
  | _ => true
  end.

(** Number of edges on the longest path from the root down. *)
Fixpoint height (node : tree) : Z :=
  match node with
  | Dict _ None => 0
  | Dict _ (Some cs) =>
      (fix over (l : list tree) : Z :=
         match l with
         | [] => 0
         | c :: l' => Z.max (1 + height c) (over l')
         end) cs
  end.

Fixpoint size (node : tree) : nat :=
  match node with
  | Dict _ None => 1
  | Dict _ (Some cs) =>
      S ((fix over (l : list tree) : nat :=
            match l with
            | [] => O
            | c :: l' => (size c + over l')%nat
            end) cs)
  end.

Definition cell : Type := (Z * Z)%type.
Definition grid : Type := list (list Z).

Definition cell_eqb (p q : cell) : bool :=
  (fst p =? fst q) && (snd p =? snd q).

(** [(x, y) in path] *)
Definition In_path (p : cell) (path : list cell) : bool :=
  existsb (cell_eqb p) path.

(** [l[i]] for [0 <= i]: [None] is an [IndexError]. *)
Definition index {A : Type} (l : list A) (i : Z) : option A :=
  nth_error l (Z.to_nat i).

(** [len(l)] *)
Definition len {A : Type} (l : list A) : Z := Z.of_nat (List.length l).

(** [min(paths, key=len)]: the first element of least length. *)
Fixpoint min_by_len {A : Type} (best : list A) (rest : list (list A)) : list A :=
  match rest with
  | [] => best
  | p :: rest' =>
      if len p <? len best then min_by_len p rest' else min_by_len best rest'
  end.

(** A dict with integer keys: [self.memo]. *)
Module ZMap := FMapAVL.Make Z_as_OT.
Module ZMapFacts := FMapFacts.WFacts_fun Z_as_OT ZMap.

Definition memo_table : Type := ZMap.t Z.

(** ** The recursion engine: class [RecursiveAlgorithms] *)

Module RecursiveAlgorithms.

Section Engine.

Variable h : host.

(** [self.max_recursion_depth], set in [__init__]. *)
Definition max_recursion_depth : Z := recursion_limit h - 50.

(** [fibonacci_naive], for a call with [level] calls of itself below it.
    [fuel] bounds the nesting of calls; [None] means it ran out. *)
Fixpoint fibonacci_naive_at (fuel : nat) (level : nat) (n : Z)
  : option (exec Z) :=
  if n <? 0 then
    Some (Raise (ValueError "Fibonacci not defined for negative numbers"))
  else if n <=? 1 then Some (Return n)
  else
    match frame_names h level with
    | NoCaller =>
        Some (Raise (AttributeError
                       "'NoneType' object has no attribute 'f_back'"))
    | NoGrandCaller =>
        Some (Raise (AttributeError
                       "'NoneType' object has no attribute 'f_code'"))
    | Names current_depth =>
        if current_depth >? max_recursion_depth then
          Some (Raise (RecursionError
                         ("Approaching recursion limit at depth "
                            ++ str_int current_depth)%string))
        else
          match fuel with
          | O => None
          | S fuel' =>
              match fibonacci_naive_at fuel' (S level) (n - 1) with
              | None => None
              | Some (Raise e) => Some (Raise e)
              | Some (Return a) =>
                  match fibonacci_naive_at fuel' (S level) (n - 2) with
                  | None => None
                  | Some (Raise e) => Some (Raise e)
                  | Some (Return b) => Some (Return (a + b))
                  end
              end
          end
    end.

(** A call from outside.  The nesting of calls is at most [n], so the fuel
    given is enough ([fibonacci_naive_at_total] below) and the last branch
    is never taken. *)
Definition fibonacci_naive (n : Z) : exec Z :=
  match fibonacci_naive_at (Z.to_nat n) 0 n with
  | Some r => r
  | None => Raise (RecursionError "maximum recursion depth exceeded")
  end.

(** One turn of the loop of [fibonacci_iterative]: [a, b = b, a + b]. *)
Definition fib_step (ab : Z * Z) (_ : Z) : Z * Z :=
  (snd ab, fst ab + snd ab).

Definition fibonacci_iterative (n : Z) : exec Z :=
  if n <? 0 then
    Raise (ValueError "Fibonacci not defined for negative numbers")
  else if n <=? 1 then Return n
  else Return (snd (fold_left fib_step (range 2 (n + 1)) (0, 1))).

(** [fibonacci_memoized(n, depth)] on the dict [memo].  The dict is
    changed in place, so it is returned with the result also when the call
    raises.  [fuel] bounds the nesting of calls; [None] means it ran out.
    The depth test is the method's own; the interpreter's limit, which
    ends a deep enough run in a [RecursionError] as well, is not in this
    definition. *)
Fixpoint fibonacci_memoized_at (fuel : nat) (memo : memo_table) (n : Z)
  (depth : Z) : option (exec Z * memo_table) :=
  if depth >? 1000 then
    Some (Raise (RecursionError "Maximum safe recursion depth exceeded"), memo)
  else if n <? 0 then
    Some (Raise (ValueError "Fibonacci not defined for negative numbers"), memo)
  else
    match ZMap.find n memo with
    | Some v => Some (Return v, memo)
    | None =>
        if n <=? 1 then Some (Return n, memo)
        else
          match fuel with
          | O => None
          | S fuel' =>
              match fibonacci_memoized_at fuel' memo (n - 1) (depth + 1) with
              | None => None
              | Some (Raise e, memo1) => Some (Raise e, memo1)
              | Some (Return a, memo1) =>
                  match
                    fibonacci_memoized_at fuel' memo1 (n - 2) (depth + 1)
                  with
                  | None => None
                  | Some (Raise e, memo2) => Some (Raise e, memo2)
                  | Some (Return b, memo2) =>
                      let result := a + b in
                      Some (Return result, ZMap.add n result memo2)
                  end
              end
          end
    end.

(** A call from outside, with the default [depth = 0].  A call at
    [depth > 1000] raises at once, so the nesting is at most 1001
    ([fibonacci_memoized_at_total] below). *)
Definition fibonacci_memoized (memo : memo_table) (n : Z)
  : exec Z * memo_table :=
  match fibonacci_memoized_at 1002 memo n 0 with
  | Some r => r
  | None => (Raise (RecursionError "maximum recursion depth exceeded"), memo)
  end.

(** [tree_traversal_naive(node, depth)].  The recursion follows the
    structure of the tree; the inner function is the [for] loop over the
    children, carrying [results].  The depth test is the method's own; the
    interpreter's limit, which ends a deep enough run in a [RecursionError]
    as well, is not in this definition. *)
Fixpoint tree_traversal_naive_at (node : tree) (depth : Z) {struct node}
  : exec (list (option string)) :=
  if depth >? 1000 then
    Raise (RecursionError "Maximum recursion depth exceeded")
  else
    match node with
    | Dict value None => Return [value]
    | Dict value (Some children) =>
        (fix for_child (cs : list tree) (results : list (option string))
           : exec (list (option string)) :=
           match cs with
           | [] => Return results
           | child :: cs' =>
               sub <- tree_traversal_naive_at child (depth + 1) ;;
               for_child cs' (results ++ sub)%list
           end) children [value]
    end.

(** The call with the default [depth = 0]. *)
Definition tree_traversal_naive (node : tree) : exec (list (option string)) :=
  tree_traversal_naive_at node 0.

(** [for child in reversed(children): stack.append(child)].  The head of
    the Rocq list is the end of the Python list, where [append] and [pop]
    work. *)
Definition push_reversed (children stack : list tree) : list tree :=
  fold_left (fun st child => child :: st) (rev children) stack.

(** The [while stack:] loop of [tree_traversal_iterative]; [fuel] bounds
    the number of turns, [None] means it ran out. *)
Fixpoint traversal_loop (fuel : nat) (stack : list tree)
  (results : list (option string)) : option (list (option string)) :=
  match stack with
  | [] => Some results
  | node :: stack' =>
      match fuel with
      | O => None
      | S fuel' =>
          traversal_loop fuel'
            (push_reversed (get_children node) stack')
            (results ++ [get_value node])%list
      end
  end.

(** Every turn pops one node and there are [size root] of them, so the
    fuel given is enough ([traversal_loop_total] below). *)
Definition tree_traversal_iterative (root : tree) : list (option string) :=
  if negb (truthy root) then []
  else
    match traversal_loop (size root) [root] [] with
    | Some results => results
    | None => []
    end.

(** [pathfinding_naive].  [path = None] of the first call is [[]].  [fuel]
    bounds the nesting of calls; [None] means it ran out.  The depth test
    is the method's own; the interpreter's limit, which ends a deep enough
    run in a [RecursionError] as well, is not in this definition. *)
Fixpoint pathfinding_naive_at (fuel : nat) (g : grid) (x y : Z)
  (target_x target_y : Z) (path : list cell) (depth : Z)
  : option (exec (list cell)) :=
  if depth >? 1000 then
    Some (Raise (RecursionError "Pathfinding recursion depth exceeded"))
  else if In_path (x, y) path then Some (Return [])
  else if (x <? 0) || (x >=? len g) || (y <? 0) then Some (Return [])
  else
    match index g 0 with
    | None => Some (Raise (IndexError "list index out of range"))
    | Some row0 =>
        if y >=? len row0 then Some (Return [])
        else
          match index g x with
          | None => Some (Raise (IndexError "list index out of range"))
          | Some row =>
              match index row y with
              | None => Some (Raise (IndexError "list index out of range"))
              | Some c =>
                  if c =? 1 then Some (Return [])
                  else
                    let current_path := (path ++ [(x, y)])%list in
                    if (x =? target_x) && (y =? target_y) then
                      Some (Return current_path)
                    else
                      match fuel with
                      | O => None
                      | S fuel' =>
                          (fix for_dir (dirs : list cell)
                             (paths : list (list cell))
                             : option (exec (list cell)) :=
                             match dirs with
                             | [] =>
                                 match paths with
                                 | [] => Some (Return [])
                                 | p :: ps => Some (Return (min_by_len p ps))
                                 end
                             | (dx, dy) :: dirs' =>
                                 match
                                   pathfinding_naive_at fuel' g
                                     (x + dx) (y + dy) target_x target_y
                                     current_path (depth + 1)
                                 with
                                 | None => None
                                 | Some (Raise e) => Some (Raise e)
                                 | Some (Return new_path) =>
                                     match new_path with
                                     | [] => for_dir dirs' paths
                                     | _ :: _ =>
                                         for_dir dirs'
                                           (paths ++ [new_path])%list
                                     end
                                 end
                             end)
                            [(1, 0); (-1, 0); (0, 1); (0, -1)] []
                      end
              end
          end
    end.

(** A call from outside.  A call at [depth > 1000] raises at once, so the
    nesting is at most 1001 ([pathfinding_naive_at_total] below). *)
Definition pathfinding_naive (g : grid) (x y target_x target_y : Z)
  : exec (list cell) :=
  match pathfinding_naive_at 1002 g x y target_x target_y [] 0 with
  | Some r => r
  | None => Raise (RecursionError "maximum recursion depth exceeded")
  end.

End Engine.

End RecursiveAlgorithms.

(** ** The dispatcher: class [OptimizedRecursion] *)

Module OptimizedRecursion.

(** The methods of [self.recursion_engine] the dispatcher calls. *)
Record engine : Type := {
  fibonacci_iterative : Z -> exec Z;
  fibonacci_naive : Z -> exec Z;
  tree_traversal_iterative : tree -> exec (list (option string));
  tree_traversal_naive : tree -> exec (list (option string));
  pathfinding_naive : grid -> Z -> Z -> Z -> Z -> exec (list cell)
}.

(** The engine [__init__] creates: [RecursiveAlgorithms()]. *)
Definition recursion_engine (h : host) : engine := {|
  fibonacci_iterative := RecursiveAlgorithms.fibonacci_iterative;
  fibonacci_naive := RecursiveAlgorithms.fibonacci_naive h;
  tree_traversal_iterative :=
    fun root => Return (RecursiveAlgorithms.tree_traversal_iterative root);
  tree_traversal_naive := RecursiveAlgorithms.tree_traversal_naive;
  pathfinding_naive := RecursiveAlgorithms.pathfinding_naive
|}.

(** One entry of [recursion_depth_metrics].  The fields [datetime] and
    [system_metrics] are host telemetry and are left out. *)
Record metric : Type := {
  timestamp : Q;
  recursion_depth : Z;
  execution_time : Q;
  memory_usage : Z;
  algorithm : string;
  success : bool
}.

(** The mutable attributes: the two counters of the dispatcher, the metric
    list of its engine, and how many times the clock has been read. *)
Record state : Type := {
  request_counter : Z;
  error_counter : Z;
  recursion_depth_metrics : list metric;
  clock_reads : nat
}.

(** A dispatcher just built, on a host whose clock was read [k] times. *)
Definition init (k : nat) : state := {|
  request_counter := 0;
  error_counter := 0;
  recursion_depth_metrics := [];
  clock_reads := k
|}.

(** The value under the key ["result"]. *)
Inductive result : Type :=
| Number (v : Z)
| Values (vs : list (option string))
| Path (p : list cell).

(** The dict a dispatch returns: the one with ["success": True] or one of
    the two with ["success": False]. *)
Inductive response : Type :=
| Success (res : result) (execution_time : Q) (memory_peak : Z)
    (recursion_depth : Z) (request_id : Z)
| Failure (error : string) (execution_time : Q)
    (recursion_depth : Z) (request_id : Z).

Definition succeeded (r : response) : bool :=
  match r with
  | Success _ _ _ _ _ => true
  | Failure _ _ _ _ => false
  end.

Definition response_time (r : response) : Q :=
  match r with
  | Success _ t _ _ _ => t
  | Failure _ t _ _ => t
  end.

(** [generate_deep_tree], called where the interpreter allows [room] more
    nested calls.  The method recurses once for every level and tests
    nothing but [depth]: each call takes a frame, and a call for which no
    room is left raises the interpreter's own [RecursionError] (message
    [overflow]).  [fuel] bounds the nesting of calls. *)
Fixpoint generate_deep_tree_at (overflow : string) (fuel : nat)
  (room depth : Z) : exec tree :=
  if room <=? 0 then Raise (RecursionError overflow)
  else if depth <=? 0 then Return (Dict (Some "leaf") (Some []))
  else
    match fuel with
    | O => Return (Dict (Some "leaf") (Some []))
    | S fuel' =>
        child <- generate_deep_tree_at overflow fuel' (room - 1) (depth - 1) ;;
        Return (Dict (Some ("node_" ++ str_int depth)%string) (Some [child]))
    end.

(** The nesting of calls is at most [depth + 1], so the fuel given is
    enough: the branch for no fuel is only reached with [depth <= 0]
    ([generate_deep_tree_cases] below). *)
Definition generate_deep_tree (overflow : string) (room depth : Z)
  : exec tree :=
  generate_deep_tree_at overflow (Z.to_nat depth) room depth.

(** [row[j] = v], nothing changed when [j] is not a position of [row]. *)
Fixpoint set_nth {A : Type} (l : list A) (j : nat) (v : A) : list A :=
  match l, j with
  | [], _ => []
  | _ :: l', O => v :: l'
  | a :: l', S j' => a :: set_nth l' j' v
  end.

(** [grid[i][j] = 1] *)
Definition set_obstacle (g : grid) (i j : Z) : grid :=
  match index g i with
  | Some row => set_nth g (Z.to_nat i) (set_nth row (Z.to_nat j) 1)
  | None => g
  end.

Definition generate_grid (size : Z) : grid :=
  let g := map (fun _ => map (fun _ => 0) (range 0 size)) (range 0 size) in
  fold_left (fun g i => set_obstacle g i (size / 2))
            (range_step 1 (size - 1) 2) g.

Section Dispatch.

Variable h : host.
Variable E : engine.

(** The body of the [try] in [process_recursive_task], up to the value of
    [result]. *)
Definition compute (algo : string) (n : Z) (use_optimization : bool)
  : exec result :=
  if n <=? 0 then Raise (ValueError "Depth must be positive")
  else if (n >? 10000) && negb use_optimization then
    Raise (ValueError "Unoptimized recursion depth too high")
  else if String.eqb algo "fibonacci" then
    if use_optimization then
      v <- fibonacci_iterative E n ;; Return (Number v)
    else if n >? 35 then
      Raise (RecursionError
               ("Naive Fibonacci too slow for n=" ++ str_int n)%string)
    else v <- fibonacci_naive E n ;; Return (Number v)
  else if String.eqb algo "tree_traversal" then
    tree <- generate_deep_tree (stack_overflow h)
              (recursion_limit h - stack_depth h) n ;;
    if use_optimization then
      vs <- tree_traversal_iterative E tree ;; Return (Values vs)
    else if n >? 500 then
      Raise (RecursionError
               ("Naive tree traversal too deep for n=" ++ str_int n)%string)
    else vs <- tree_traversal_naive E tree ;; Return (Values vs)
  else if String.eqb algo "pathfinding" then
    let g := generate_grid (Z.min n 20) in
    p <- pathfinding_naive E g 0 0 (Z.min (n - 1) 19) (Z.min (n - 1) 19) ;;
    Return (Path p)
  else Raise (ValueError ("Unknown algorithm: " ++ algo)%string).

(** [calculate_recursion_metrics]: reads the clock once and appends. *)
Definition calculate_recursion_metrics (st : state) (n : Z)
  (elapsed : Q) (memory : Z) (algo : string) (ok : bool) : state :=
  {| request_counter := request_counter st;
     error_counter := error_counter st;
     recursion_depth_metrics :=
       (recursion_depth_metrics st ++
          [{| timestamp := clock h (clock_reads st);
              recursion_depth := n;
              execution_time := elapsed;
              memory_usage := memory;
              algorithm := algo;
              success := ok |}])%list;
     clock_reads := S (clock_reads st) |}.

(** [time.time()]: the reading and the state after it. *)
Definition time (st : state) : Q * state :=
  (clock h (clock_reads st),
   {| request_counter := request_counter st;
      error_counter := error_counter st;
      recursion_depth_metrics := recursion_depth_metrics st;
      clock_reads := S (clock_reads st) |}).

Definition count_request (st : state) : state :=
  {| request_counter := request_counter st + 1;
     error_counter := error_counter st;
     recursion_depth_metrics := recursion_depth_metrics st;
     clock_reads := clock_reads st |}.

Definition count_error (st : state) : state :=
  {| request_counter := request_counter st;
     error_counter := error_counter st + 1;
     recursion_depth_metrics := recursion_depth_metrics st;
     clock_reads := clock_reads st |}.

Definition process_recursive_task (st : state) (algo : string) (n : Z)
  (use_optimization : bool) : state * response :=
  let st := count_request st in
  let request_id := request_counter st in
  let '(start_time, st) := time st in
  match compute algo n use_optimization with
  | Return res =>
      let peak := traced_peak h request_id in
      let '(now, st) := time st in
      let elapsed := (now - start_time)%Q in
      let st := calculate_recursion_metrics st n elapsed peak algo true in
      (st, Success res elapsed peak n request_id)
  | Raise e =>
      if is_recursion_error e then
        let st := count_error st in
        let '(now, st) := time st in
        let st :=
          calculate_recursion_metrics st n (now - start_time)%Q 0 algo false
        in
        let '(now', st) := time st in
        (st,
         Failure ("RecursionError: " ++ exn_message e)%string
                 (now' - start_time)%Q n request_id)
      else
        let st := count_error st in
        let '(now, st) := time st in
        (st,
         Failure ("Error: " ++ exn_message e)%string
                 (now - start_time)%Q n request_id)
  end.

(** One entry of the list [process_multiple_requests] takes;
    [optimized = None] is a dict without that key. *)
Record request : Type := {
  req_algorithm : string;
  req_depth : Z;
  req_optimized : option bool
}.

(** [process_multiple_requests].  No dispatch awaits anything, so the
    tasks run one after the other in the order of the list. *)
Fixpoint process_multiple_requests (st : state) (requests : list request)
  : state * list response :=
  match requests with
  | [] => (st, [])
  | r :: requests' =>
      let '(st, out) :=
        process_recursive_task st (req_algorithm r) (req_depth r)
          (match req_optimized r with Some b => b | None => true end) in
      let '(st, outs) := process_multiple_requests st requests' in
      (st, out :: outs)
  end.

End Dispatch.

(** [clear_metrics] of the engine, as the dispatcher's state sees it. *)
Definition clear_metrics (st : state) : state :=
  {| request_counter := request_counter st;
     error_counter := error_counter st;
     recursion_depth_metrics := [];
     clock_reads := clock_reads st |}.

(** The dict [get_performance_stats] returns, without [system_metrics]. *)
Record stats : Type := {
  total_requests : Z;
  successful_requests : Z;
  failed_requests : Z;
  error_rate : Q;
  avg_execution_time : Q;
  max_execution_time : Q
}.

(** [sum(ts)] *)
Definition Qsum (ts : list Q) : Q := fold_left Qplus ts (0%Q).

(** [max(ts)] of a list that is not empty, [0] otherwise. *)
Definition Qmaximum (ts : list Q) : Q :=
  match ts with
  | [] => 0%Q
  | t :: ts' => fold_left (fun m t' => if Qlt_le_dec m t' then t' else m) ts' t
  end.

Definition get_performance_stats (st : state) : stats :=
  let successful := filter success (recursion_depth_metrics st) in
  let failed :=
    filter (fun m => negb (success m)) (recursion_depth_metrics st) in
  let execution_times := map execution_time successful in
  {| total_requests := request_counter st;
     successful_requests := len successful;
     failed_requests := len failed;
     error_rate :=
       if request_counter st >? 0 then
         (inject_Z (len failed) / inject_Z (request_counter st) * 100)%Q
       else 0%Q;
     avg_execution_time :=
       match execution_times with
       | [] => 0%Q
       | _ :: _ => (Qsum execution_times / inject_Z (len execution_times))%Q
       end;
     max_execution_time := Qmaximum execution_times |}.

End OptimizedRecursion.

(** ** The endpoints of [app.py] that only read the dispatcher *)

Module App.

(** [get_metrics]: the last 100 metrics, [recursion_depth_metrics[-100:]],
    and the number of metrics held, which the endpoint calls
    [total_requests]. *)
Definition get_metrics (st : OptimizedRecursion.state)
  : list OptimizedRecursion.metric * Z :=
  let metrics := OptimizedRecursion.recursion_depth_metrics st in
  (skipn (List.length metrics - 100) metrics, len metrics).

(** [get_stats] *)
Definition get_stats (st : OptimizedRecursion.state)
  : OptimizedRecursion.stats :=
  OptimizedRecursion.get_performance_stats st.

End App.

(** ** Reference definitions

    What the design document compares the code with, and the hosts and
    inputs used as examples. *)

(** The Fibonacci sequence: F(0) = 0, F(1) = 1, F(n) = F(n-1) + F(n-2). *)
Fixpoint fib_spec (n : nat) : Z :=
  match n with
  | O => 0
  | S n' =>
      match n' with
      | O => 1
      | S n'' => fib_spec n' + fib_spec n''
      end
  end.

(** Pre-order: the label of a node, then its children from left to right. *)
Fixpoint preorder (node : tree) : list (option string) :=
  match node with
  | Dict v None => [v]
  | Dict v (Some cs) =>
      v :: (fix over (l : list tree) : list (option string) :=
              match l with
              | [] => []
              | c :: l' => (preorder c ++ over l')%list
              end) cs
  end.

(** The number of nodes of the trees on a stack. *)
Definition total_size (stack : list tree) : nat :=
  fold_right (fun t k => (size t + k)%nat) O stack.

(** The host never makes the depth check of [fibonacci_naive] fire: three
    frames up there is always a code object, and it names no more than
    [max_recursion_depth] things. *)
Definition frames_quiet (h : host) : Prop :=
  forall level, exists c,
    frame_names h level = Names c /\
    c <= RecursiveAlgorithms.max_recursion_depth h.

(** A host with CPython's default limit of 1000 frames, where a dispatch
    runs in the 40th frame, the code objects inspected name eleven things,
    the clock advances by a quarter of a second per reading and the tracer
    always reports 4096 bytes. *)
Definition cpython : host := {|
  recursion_limit := 1000;
  stack_depth := 40;
  stack_overflow := "maximum recursion depth exceeded";
  frame_names := fun _ => Names 11;
  clock := fun k => (inject_Z (Z.of_nat k) / 4)%Q;
  traced_peak := fun _ => 4096
|}.

(** A tree with a branching root, one child with an empty list of children
    and one without the key. *)
Definition sample_tree : tree :=
  Dict (Some "root")
       (Some [Dict (Some "left") (Some [Dict (Some "below") (Some [])]);
              Dict (Some "right") None]).

(** Every node has at most one child. *)
Fixpoint is_chain (node : tree) : bool :=
  match node with
  | Dict _ None => true
  | Dict _ (Some []) => true
  | Dict _ (Some [c]) => is_chain c
  | Dict _ (Some (_ :: _ :: _)) => false
  end.

(** The 5 x 5 grid without obstacles. *)
Definition grid5 : grid :=
  [[0; 0; 0; 0; 0]; [0; 0; 0; 0; 0]; [0; 0; 0; 0; 0]; [0; 0; 0; 0; 0];
   [0; 0; 0; 0; 0]].

(** Down the first column, then along the last row. *)
Definition path5 : list cell :=
  [(0, 0); (1, 0); (2, 0); (3, 0); (4, 0); (4, 1); (4, 2); (4, 3); (4, 4)].

(** Two cells one move apart. *)
Definition adjacent (p q : cell) : bool :=
  Z.abs (fst p - fst q) + Z.abs (snd p - snd q) =? 1.

(** A sequence of cells, each one move from the one before. *)
Fixpoint is_walk (path : list cell) : bool :=
  match path with
  | [] => true
  | p :: rest =>
      match rest with
      | [] => true
      | q :: _ => adjacent p q && is_walk rest
      end
  end.

(** The dispatcher's engine on that host. *)
Definition cpython_engine : OptimizedRecursion.engine :=
  OptimizedRecursion.recursion_engine cpython.

(** A host on which the frame check of [fibonacci_naive] fires: the code
    object inspected names more things than the limit allows. *)
Definition loud_host : host := {|
  recursion_limit := 1000;
  stack_depth := 40;
  stack_overflow := "maximum recursion depth exceeded";
  frame_names := fun _ => Names 2000;
  clock := fun k => (inject_Z (Z.of_nat k) / 4)%Q;
  traced_peak := fun _ => 4096
|}.

(** A host that calls [fibonacci_naive] from the top level of a script:
    the caller of the first call is the bottom of the stack; for the call
    nested in it the caller's caller is. *)
Definition script_host : host := {|
  recursion_limit := 1000;
  stack_depth := 1;
  stack_overflow := "maximum recursion depth exceeded";
  frame_names :=
    fun level =>
      match level with
      | O => NoCaller
      | S O => NoGrandCaller
      | S (S _) => Names 11
      end;
  clock := fun k => (inject_Z (Z.of_nat k) / 4)%Q;
  traced_peak := fun _ => 4096
|}.

(** A host that drives a dispatch from the top level of a script: below
    the frame of the dispatch there is the script alone, so the frame check
    of the first call of [fibonacci_naive] finds no caller of its caller's
    caller. *)
Definition shallow_host : host := {|
  recursion_limit := 1000;
  stack_depth := 2;
  stack_overflow := "maximum recursion depth exceeded";
  frame_names :=
    fun level =>
      match level with
      | O => NoGrandCaller
      | S _ => Names 11
      end;
  clock := fun k => (inject_Z (Z.of_nat k) / 4)%Q;
  traced_peak := fun _ => 4096
|}.

(** How a dispatch ends: with a result, with a [RecursionError] (caught by
    the first [except], which records it), or with another exception (caught
    by the second, which does not). *)
Inductive outcome : Type :=
| Succeeded
| FailedRecorded
| FailedUnrecorded.

Definition outcome_eqb (a b : outcome) : bool :=
  match a, b with
  | Succeeded, Succeeded => true
  | FailedRecorded, FailedRecorded => true
  | FailedUnrecorded, FailedUnrecorded => true
  | _, _ => false
  end.

Definition outcome_of (h : host) (E : OptimizedRecursion.engine)
  (algo : string) (n : Z) (use_optimization : bool) : outcome :=
  match OptimizedRecursion.compute h E algo n use_optimization with
  | Return _ => Succeeded
  | Raise e => if is_recursion_error e then FailedRecorded else FailedUnrecorded
  end.

(** [request.get('optimized', True)] *)
Definition optimized_of (r : OptimizedRecursion.request) : bool :=
  match OptimizedRecursion.req_optimized r with
  | Some b => b
  | None => true
  end.

(** How many of the requests end the given way. *)
Definition count_outcome (h : host) (E : OptimizedRecursion.engine)
  (o : outcome) (requests : list OptimizedRecursion.request) : Z :=
  len (filter
         (fun r =>
            outcome_eqb
              (outcome_of h E (OptimizedRecursion.req_algorithm r)
                 (OptimizedRecursion.req_depth r) (optimized_of r)) o)
         requests).

(** One dispatch that succeeds, one that is stopped by the guard of the
    naive Fibonacci, one that fails validation. *)
Definition sample_requests : list OptimizedRecursion.request :=
  [ {| OptimizedRecursion.req_algorithm := "fibonacci";
       OptimizedRecursion.req_depth := 5;
       OptimizedRecursion.req_optimized := None |};
    {| OptimizedRecursion.req_algorithm := "fibonacci";
       OptimizedRecursion.req_depth := 36;
       OptimizedRecursion.req_optimized := Some false |};
    {| OptimizedRecursion.req_algorithm := "fibonacci";
       OptimizedRecursion.req_depth := 0;
       OptimizedRecursion.req_optimized := Some true |} ].

(** Every entry of the memo dict under a key [k >= 0] is F(k). *)
Definition memo_consistent (memo : memo_table) : Prop :=
  forall k v : Z,
    0 <= k -> ZMap.find k memo = Some v -> v = fib_spec (Z.to_nat k).

(** Every entry of [memo] is an entry of [memo']. *)
Definition memo_extends (memo memo' : memo_table) : Prop :=
  forall k v : Z, ZMap.find k memo = Some v -> ZMap.find k memo' = Some v.

(** The four moves, in the order [pathfinding_naive] tries them. *)
Definition dirs4 : list cell := [(1, 0); (-1, 0); (0, 1); (0, -1)].

(** The loop of [pathfinding_naive] over the moves, with the recursive call
    for a move as a parameter: a path found is kept when it is not empty,
    and the first of the shortest ones is returned at the end. *)
Fixpoint for_dirs (rec : cell -> option (exec (list cell)))
  (dirs : list cell) (paths : list (list cell))
  : option (exec (list cell)) :=
  match dirs with
  | [] =>
      match paths with
      | [] => Some (Return [])
      | p :: ps => Some (Return (min_by_len p ps))
      end
  | d :: dirs' =>
      match rec d with
      | None => None
      | Some (Raise e) => Some (Raise e)
      | Some (Return new_path) =>
          match new_path with
          | [] => for_dirs rec dirs' paths
          | _ :: _ => for_dirs rec dirs' (paths ++ [new_path])%list
          end
      end
  end.

(** [min(paths, key=len) if paths else []] *)
Definition shortest (paths : list (list cell)) : list cell :=
  match paths with
  | [] => []
  | p :: ps => min_by_len p ps
  end.

Definition nonempty {A : Type} (l : list A) : bool :=
  match l with
  | [] => false
  | _ :: _ => true
  end.

(** A cell inside the grid, whose width is that of row 0. *)
Definition in_bounds (g : grid) (c : cell) : bool :=
  (0 <=? fst c) && (fst c <? len g) &&
  (0 <=? snd c) && (snd c <? len (hd [] g)).

(** A cell inside the grid that [grid[x][y]] finds and that is no
    obstacle. *)
Definition cell_free (g : grid) (c : cell) : bool :=
  in_bounds g c &&
  match index g (fst c) with
  | Some row =>
      match index row (snd c) with
      | Some v => negb (v =? 1)
      | None => false
      end
  | None => false
  end.

(** Every row is as long as row 0. *)
Definition rectangular (g : grid) : bool :=
  forallb (fun row => len row =? len (hd [] g)) g.

(** The cells inside the grid. *)
Definition all_cells (g : grid) : list cell :=
  list_prod (range 0 (len g)) (range 0 (len (hd [] g))).

(** A way from [start] to [target] over free cells, one move at a time,
    through no cell twice. *)
Definition simple_free_walk (g : grid) (start target : cell)
  (w : list cell) : Prop :=
  hd_error w = Some start /\ last w start = target /\
  is_walk w = true /\ forallb (cell_free g) w = true /\ NoDup w.

(** A 3 x 3 grid with obstacles above and below its centre. *)
Definition walled_grid : grid := [[0; 1; 0]; [0; 0; 0]; [0; 1; 0]].

(** [grid[i][j]] for [0 <= i] and [0 <= j]; [None] is an [IndexError]. *)
Definition cell_at (g : grid) (i j : Z) : option Z :=
  match index g i with
  | Some row => index row j
  | None => None
  end.

(** The labels of a chain of the generator from top to bottom: [node_k],
    ..., [node_1], [leaf]. *)
Fixpoint chain_labels (k : nat) : list (option string) :=
  match k with
  | O => [Some "leaf"]
  | S k' =>
      Some ("node_" ++ str_int (Z.of_nat k))%string :: chain_labels k'
  end.

(** The chain of [k + 1] nodes the generator is written to build:
    [node_k] above ... above [node_1] above [leaf]. *)
Fixpoint deep_chain (k : nat) : tree :=
  match k with
  | O => Dict (Some "leaf") (Some [])
  | S k' =>
      Dict (Some ("node_" ++ str_int (Z.of_nat k))%string)
           (Some [deep_chain k'])
  end.

(** The message of the [RecursionError] that ends a naive tree traversal
    dispatch of more than 500 levels: the guard's own when the tree could
    be built, the interpreter's when building it overflowed the stack. *)
Definition traversal_refusal (h : host) (n : Z) : string :=
  if n + 1 <=? recursion_limit h - stack_depth h
  then ("Naive tree traversal too deep for n=" ++ str_int n)%string
  else stack_overflow h.

(** The values under ["request_id"] and ["recursion_depth"]. *)
Definition response_id (r : OptimizedRecursion.response) : Z :=
  match r with
  | OptimizedRecursion.Success _ _ _ _ id => id
  | OptimizedRecursion.Failure _ _ _ id => id
  end.

Definition response_depth (r : OptimizedRecursion.response) : Z :=
  match r with
  | OptimizedRecursion.Success _ _ _ n _ => n
  | OptimizedRecursion.Failure _ _ n _ => n
  end.

(** The states of a dispatcher: just built, after a dispatch, after the
    metrics were cleared. *)
Inductive reachable (h : host) (E : OptimizedRecursion.engine)
  : OptimizedRecursion.state -> Prop :=
| reach_init (k : nat) : reachable h E (OptimizedRecursion.init k)
| reach_dispatch (st : OptimizedRecursion.state) (algo : string) (n : Z)
    (opt : bool) :
    reachable h E st ->
    reachable h E
      (fst (OptimizedRecursion.process_recursive_task h E st algo n opt))
| reach_clear (st : OptimizedRecursion.state) :
    reachable h E st -> reachable h E (OptimizedRecursion.clear_metrics st).

(** How the counters of a state relate: the errors counted are among the
    requests counted, the failures recorded among the errors counted, and
    the metrics held are no more than the requests counted. *)
Definition counters_ok (st : OptimizedRecursion.state) : Prop :=
  0 <= OptimizedRecursion.error_counter st
    <= OptimizedRecursion.request_counter st /\
  len (filter (fun m => negb (OptimizedRecursion.success m))
         (OptimizedRecursion.recursion_depth_metrics st))
  <= OptimizedRecursion.error_counter st /\
  len (OptimizedRecursion.recursion_depth_metrics st)
  <= OptimizedRecursion.request_counter st.

(** [k] cells to the right from [(x, y)], and [k] cells down from it. *)
Fixpoint east (x y : Z) (k : nat) : list cell :=
  match k with
  | O => []
  | S k' => (x, y) :: east x (y + 1) k'
  end.

Fixpoint south (x y : Z) (k : nat) : list cell :=
  match k with
  | O => []
  | S k' => (x, y) :: south (x + 1) y k'
  end.

(** From [(0, 0)] along row 0 to column [n], then down that column to
    [(n, n)]. *)
Definition corner_walk (n : nat) : list cell :=
  (east 0 0 n ++ south 0 (Z.of_nat n) (S n))%list.

(** A memo holding F(1) and F(2) and nothing else. *)
Definition warm_memo : memo_table := ZMap.add 2 1 (ZMap.add 1 1 (ZMap.empty Z)).

(** ** Fibonacci *)

Section Fibonacci.

Import RecursiveAlgorithms.

Lemma fib_spec_step (k : nat) :
  fib_spec (S (S k)) = fib_spec (S k) + fib_spec k.
Proof. reflexivity. Qed.

Lemma range_length (lo hi : Z) : List.length (range lo hi) = Z.to_nat (hi - lo).
Proof. unfold range. now rewrite length_map, length_seq. Qed.

(** The loop only counts its turns. *)
Lemma fib_loop (l : list Z) :
  forall k : nat,
    fold_left fib_step l (fib_spec k, fib_spec (S k)) =
    (fib_spec (k + List.length l), fib_spec (S (k + List.length l))).
Proof.
  induction l as [|x l IH]; intros k; cbn [fold_left List.length].
  - now rewrite Nat.add_0_r.
  - replace (fib_step (fib_spec k, fib_spec (S k)) x)
      with (fib_spec (S k), fib_spec (S (S k)))
      by (unfold fib_step; cbn [fst snd]; rewrite fib_spec_step; f_equal; lia).
    rewrite IH.
    now replace (S k + List.length l)%nat with (k + S (List.length l))%nat by lia.
Qed.

Lemma fibonacci_iterative_spec (n : Z) :
  0 <= n -> fibonacci_iterative n = Return (fib_spec (Z.to_nat n)).
Proof.
  intros Hn. unfold fibonacci_iterative.
  destruct (Z.ltb_spec n 0) as [?|_]; [lia|].
  destruct (Z.leb_spec n 1) as [Hle|Hgt].
  - assert (n = 0 \/ n = 1) as [-> | ->] by lia; reflexivity.
  - change (0, 1) with (fib_spec 0, fib_spec 1).
    rewrite fib_loop, range_length. cbn [snd].
    replace (S (0 + Z.to_nat (n + 1 - 2))) with (Z.to_nat n) by lia.
    reflexivity.
Qed.

Lemma fibonacci_iterative_negative (n : Z) :
  n < 0 ->
  fibonacci_iterative n =
  Raise (ValueError "Fibonacci not defined for negative numbers").
Proof.
  intros Hn. unfold fibonacci_iterative.
  destruct (Z.ltb_spec n 0); [reflexivity | lia].
Qed.

Variable h : host.

(** Whatever the host answers, fuel [n] is enough for [fibonacci_naive n]. *)
Lemma fibonacci_naive_at_total (fuel : nat) :
  forall (level : nat) (n : Z),
    (Z.to_nat n <= S fuel)%nat ->
    exists r, fibonacci_naive_at h fuel level n = Some r.
Proof.
  induction fuel as [|fuel IH]; intros level n Hf.
  - cbn [fibonacci_naive_at].
    destruct (n <? 0); [eauto|].
    destruct (Z.leb_spec n 1); [eauto | lia].
  - cbn [fibonacci_naive_at].
    destruct (n <? 0); [eauto|].
    destruct (Z.leb_spec n 1); [eauto|].
    destruct (frame_names h level) as [| |c]; [eauto | eauto |].
    destruct (c >? max_recursion_depth h); [eauto|].
    destruct (IH (S level) (n - 1)) as [[a|e] ->]; [lia| |eauto].
    destruct (IH (S level) (n - 2)) as [[b|e] ->]; [lia| |]; eauto.
Qed.

(** So [fibonacci_naive] is the result of the recursion, never the
    fallback for lack of fuel. *)
Lemma fibonacci_naive_defined (n : Z) :
  fibonacci_naive_at h (Z.to_nat n) 0 n = Some (fibonacci_naive h n).
Proof.
  unfold fibonacci_naive.
  destruct (Z.to_nat n) as [|fuel] eqn:Hn.
  - cbn [fibonacci_naive_at].
    destruct (n <? 0); [reflexivity|].
    destruct (Z.leb_spec n 1); [reflexivity | lia].
  - destruct (fibonacci_naive_at_total fuel 0%nat n) as [r Hr]; [lia|].
    destruct (fibonacci_naive_at_total (S fuel) 0%nat n) as [r' ->]; [lia|].
    reflexivity.
Qed.

Hypothesis quiet : frames_quiet h.

Lemma fibonacci_naive_at_spec (fuel : nat) :
  forall (level : nat) (n : Z),
    0 <= n -> (Z.to_nat n <= S fuel)%nat ->
    fibonacci_naive_at h fuel level n = Some (Return (fib_spec (Z.to_nat n))).
Proof.
  induction fuel as [|fuel IH]; intros level n Hn Hf;
    cbn [fibonacci_naive_at];
    (destruct (Z.ltb_spec n 0); [lia|]);
    (destruct (Z.leb_spec n 1);
     [assert (n = 0 \/ n = 1) as [-> | ->] by lia; reflexivity|]).
  - lia.
  - destruct (quiet level) as (c & -> & Hc).
    destruct (Z.gtb_spec c (max_recursion_depth h)); [lia|].
    rewrite !IH by lia.
    replace (Z.to_nat n) with (S (S (Z.to_nat (n - 2)))) by lia.
    rewrite fib_spec_step.
    now replace (Z.to_nat (n - 1)) with (S (Z.to_nat (n - 2))) by lia.
Qed.

Lemma fibonacci_naive_spec (n : Z) :
  0 <= n -> fibonacci_naive h n = Return (fib_spec (Z.to_nat n)).
Proof.
  intros Hn. unfold fibonacci_naive.
  destruct (Z.to_nat n) as [|k] eqn:Hk.
  - assert (n = 0) as -> by lia. reflexivity.
  - rewrite (fibonacci_naive_at_spec (S k)) by lia. now rewrite Hk.
Qed.

End Fibonacci.

Lemma cpython_quiet : frames_quiet cpython.
Proof. intros level. exists 11. split; [reflexivity | vm_compute; discriminate]. Qed.

(** C1, where the code departs from it.  [fibonacci_naive(2)] called from
    the top level of a script does not return the value
    [fibonacci_iterative(2)] returns: the check that is to track the depth
    of the recursion looks three frames up the stack, finds no frame there
    and ends the call in an [AttributeError]. *)
Theorem fibonacci_naive_top_level :
  RecursiveAlgorithms.fibonacci_naive script_host 2 =
  Raise (AttributeError "'NoneType' object has no attribute 'f_back'") /\
  RecursiveAlgorithms.fibonacci_iterative 2 = Return 1.
Proof. split; reflexivity. Qed.

(** ** Tree traversal *)

Section Traversal.

Import RecursiveAlgorithms.

(** Induction on trees with the hypothesis for every child. *)
Lemma tree_nested_ind (P : tree -> Prop) :
  (forall v, P (Dict v None)) ->
  (forall v cs, Forall P cs -> P (Dict v (Some cs))) ->
  forall t, P t.
Proof.
  intros Hleaf Hnode. fix IH 1. intros [v [cs|]].
  - apply Hnode. induction cs as [|c cs IHcs]; constructor.
    + apply IH.
    + exact IHcs.
  - apply Hleaf.
Qed.

Lemma preorder_node (node : tree) :
  preorder node = get_value node :: flat_map preorder (get_children node).
Proof.
  destruct node as [v [cs|]]; reflexivity.
Qed.

Lemma height_cons (v : option string) (c : tree) (cs : list tree) :
  height (Dict v (Some (c :: cs))) =
  Z.max (1 + height c) (height (Dict v (Some cs))).
Proof. reflexivity. Qed.

Lemma height_nonneg (t : tree) : 0 <= height t.
Proof.
  induction t as [v|v cs IH] using tree_nested_ind; [reflexivity|].
  induction IH as [|c cs Hc _ IHcs]; [reflexivity|].
  rewrite height_cons. lia.
Qed.

Lemma height_child (v : option string) (cs : list tree) (c : tree) :
  In c cs -> 1 + height c <= height (Dict v (Some cs)).
Proof.
  induction cs as [|c' cs IH]; intros Hin; [contradiction|].
  rewrite height_cons. destruct Hin as [-> | Hin]; [lia|].
  specialize (IH Hin). lia.
Qed.

Lemma size_node (node : tree) :
  size node = S (total_size (get_children node)).
Proof.
  destruct node as [v [cs|]]; reflexivity.
Qed.

Lemma total_size_app (s1 s2 : list tree) :
  total_size (s1 ++ s2) = (total_size s1 + total_size s2)%nat.
Proof.
  induction s1 as [|t s1 IH]; [reflexivity|].
  change (size t + total_size (s1 ++ s2) =
          size t + total_size s1 + total_size s2)%nat.
  rewrite IH. lia.
Qed.

(** Pushing the children last to first leaves the first child on top. *)
Lemma push_reversed_app (children stack : list tree) :
  push_reversed children stack = (children ++ stack)%list.
Proof.
  unfold push_reversed. rewrite <- fold_left_rev_right, rev_involutive.
  induction children as [|c cs IH]; [reflexivity|].
  cbn [fold_right app]. now rewrite IH.
Qed.

(** The naive traversal of a tree that fits under the ceiling. *)
Lemma tree_traversal_naive_at_spec (t : tree) :
  forall depth : Z,
    0 <= depth -> depth + height t <= 1000 ->
    tree_traversal_naive_at t depth = Return (preorder t).
Proof.
  induction t as [v|v cs IH] using tree_nested_ind; intros depth H0 Hd.
  - cbn [tree_traversal_naive_at].
    destruct (Z.gtb_spec depth 1000); [cbn [height] in Hd; lia | reflexivity].
  - pose proof (height_nonneg (Dict v (Some cs))) as Hh.
    rewrite preorder_node. cbn [get_value get_children].
    cbn [tree_traversal_naive_at].
    destruct (Z.gtb_spec depth 1000); [lia|].
    assert (Hcs : forall c, In c cs -> depth + 1 + height c <= 1000).
    { intros c Hin. pose proof (height_child v cs c Hin). lia. }
    clear Hd Hh. change (v :: flat_map preorder cs)
      with ([v] ++ flat_map preorder cs)%list.
    generalize [v] as results.
    induction IH as [|c cs Hc _ IHcs]; intros results.
    + now rewrite app_nil_r.
    + rewrite Hc by (try apply Hcs; try left; try reflexivity; lia).
      cbn [bind flat_map]. rewrite IHcs.
      * now rewrite app_assoc.
      * intros c' Hin. apply Hcs. now right.
Qed.

(** The loop, given a turn for every node on the stack. *)
Lemma traversal_loop_spec (fuel : nat) :
  forall (stack : list tree) (results : list (option string)),
    (total_size stack <= fuel)%nat ->
    traversal_loop fuel stack results =
    Some (results ++ flat_map preorder stack)%list.
Proof.
  induction fuel as [|fuel IH]; intros [|node stack] results Hf;
    cbn [traversal_loop flat_map].
  - now rewrite app_nil_r.
  - cbn [total_size fold_right] in Hf. rewrite size_node in Hf. lia.
  - now rewrite app_nil_r.
  - cbn [total_size fold_right] in Hf. rewrite size_node in Hf.
    fold (total_size stack) in Hf.
    rewrite push_reversed_app, IH.
    + rewrite flat_map_app, (preorder_node node), <- app_assoc. reflexivity.
    + rewrite total_size_app. lia.
Qed.

Lemma traversal_loop_total (root : tree) :
  exists results, traversal_loop (size root) [root] [] = Some results.
Proof.
  eexists. apply traversal_loop_spec.
  cbn [total_size fold_right]. lia.
Qed.

Lemma tree_traversal_iterative_defined (root : tree) :
  truthy root = true ->
  traversal_loop (size root) [root] [] = Some (tree_traversal_iterative root).
Proof.
  intros Ht. unfold tree_traversal_iterative. rewrite Ht. cbn [negb].
  now destruct (traversal_loop_total root) as [results ->].
Qed.

Lemma tree_traversal_iterative_spec (root : tree) :
  truthy root = true -> tree_traversal_iterative root = preorder root.
Proof.
  intros Ht. unfold tree_traversal_iterative. rewrite Ht. cbn [negb].
  rewrite traversal_loop_spec by (cbn [total_size fold_right]; lia).
  cbn [flat_map app]. now rewrite app_nil_r.
Qed.

(** C2.  For every tree of depth at most 200 (a node that is not the
    empty dict), the naive traversal returns, and returns the sequence the
    iterative traversal produces. *)
Theorem tree_traversal_naive_eq_iterative (T : tree) :
  truthy T = true -> height T <= 200 ->
  tree_traversal_naive T = Return (tree_traversal_iterative T).
Proof.
  intros Ht Hh. unfold tree_traversal_naive.
  rewrite tree_traversal_naive_at_spec by lia.
  now rewrite tree_traversal_iterative_spec.
Qed.

(** On the empty dict the two differ: the naive traversal reports the
    missing label, the iterative one stops at its [if not root]. *)
Lemma traversal_of_empty_dict :
  tree_traversal_naive (Dict None None) = Return [None] /\
  tree_traversal_iterative (Dict None None) = [].
Proof. split; reflexivity. Qed.

End Traversal.

Lemma tree_traversal_naive_eq_iterative_witness :
  RecursiveAlgorithms.tree_traversal_naive sample_tree =
  Return (RecursiveAlgorithms.tree_traversal_iterative sample_tree).
Proof.
  apply tree_traversal_naive_eq_iterative;
    [reflexivity | vm_compute; discriminate].
Defined.

(** ** Pathfinding *)

Section Pathfinding.

Import RecursiveAlgorithms.

(** A call deeper than 1000 raises at once, so fuel for the levels left
    below the ceiling is enough. *)
Lemma pathfinding_naive_at_total (fuel : nat) :
  forall (g : grid) (x y tx ty : Z) (path : list cell) (depth : Z),
    1001 <= depth + Z.of_nat fuel ->
    exists r, pathfinding_naive_at fuel g x y tx ty path depth = Some r.
Proof.
  induction fuel as [|fuel IH]; intros g x y tx ty path depth Hf;
    cbn [pathfinding_naive_at];
    (destruct (Z.gtb_spec depth 1000); [eauto|]); [lia|].
  destruct (In_path (x, y) path); [eauto|].
  destruct ((x <? 0) || (x >=? len g) || (y <? 0)); [eauto|].
  destruct (index g 0) as [row0|]; [|eauto].
  destruct (y >=? len row0); [eauto|].
  destruct (index g x) as [row|]; [|eauto].
  destruct (index row y) as [c|]; [|eauto].
  destruct (c =? 1); [eauto|].
  destruct ((x =? tx) && (y =? ty)); [eauto|].
  repeat match goal with
         | |- context [pathfinding_naive_at fuel ?g' ?x' ?y' ?a ?b ?p ?d] =>
             let r := fresh "r" in
             let Hr := fresh "Hr" in
             destruct (IH g' x' y' a b p d) as [r Hr]; [lia|];
             rewrite Hr; clear Hr; destruct r as [[|? ?]|?]
         end;
    cbn [app]; eauto.
Qed.

(** So [pathfinding_naive] is the result of the recursion, never the
    fallback for lack of fuel. *)
Lemma pathfinding_naive_defined (g : grid) (x y tx ty : Z) :
  pathfinding_naive_at 1002 g x y tx ty [] 0 =
  Some (pathfinding_naive g x y tx ty).
Proof.
  unfold pathfinding_naive.
  now destruct (pathfinding_naive_at_total 1002 g x y tx ty [] 0) as [r ->].
Qed.

Lemma walk_reach (path : list cell) :
  forall a : cell,
    is_walk (a :: path) = true ->
    Z.abs (fst a - fst (last path a))
    + Z.abs (snd a - snd (last path a)) + 1 <= len (a :: path).
Proof.
  induction path as [|b path IH]; intros a Hw.
  - cbn. lia.
  - cbn [is_walk] in Hw. apply andb_prop in Hw as [Hab Hw].
    specialize (IH b Hw). unfold adjacent in Hab.
    apply Z.eqb_eq in Hab.
    replace (last (b :: path) a) with (last path b)
      by (clear; revert b; induction path as [|c path IHp]; intros b;
          [reflexivity | cbn [last] in *; destruct path; auto]).
    unfold len in *. cbn [List.length] in *. lia.
Qed.

(** C8.  On the 5 x 5 grid without obstacles, from (0,0) to (4,4), with
    the neighbours tried in the order down, up, right, left and the cells
    of the current path skipped, [pathfinding_naive] returns a path of
    exactly 9 cells, the start and 8 moves; no sequence of moves from
    (0,0) to (4,4) has fewer cells. *)
Theorem pathfinding_naive_grid5 :
  pathfinding_naive grid5 0 0 4 4 = Return path5 /\
  len path5 = 9 /\
  is_walk path5 = true /\
  forall q : list cell,
    is_walk ((0, 0) :: q) = true -> last q (0, 0) = (4, 4) ->
    9 <= len ((0, 0) :: q).
Proof.
  split; [vm_compute; reflexivity|].
  split; [reflexivity|]. split; [reflexivity|].
  intros q Hw Hlast. pose proof (walk_reach q (0, 0) Hw) as H.
  rewrite Hlast in H. exact H.
Qed.

End Pathfinding.

Lemma pathfinding_naive_grid5_witness :
  9 <= len ((0, 0) :: tl path5).
Proof.
  apply (proj2 (proj2 (proj2 pathfinding_naive_grid5))); reflexivity.
Defined.

(** ** The tree generator *)

Section Generator.

Import RecursiveAlgorithms OptimizedRecursion.

Lemma deep_chain_truthy (k : nat) : truthy (deep_chain k) = true.
Proof. now destruct k. Qed.

Lemma deep_chain_is_chain (k : nat) : is_chain (deep_chain k) = true.
Proof. induction k as [|k IH]; [reflexivity | exact IH]. Qed.

Lemma deep_chain_height (k : nat) : height (deep_chain k) = Z.of_nat k.
Proof.
  induction k as [|k IH]; [reflexivity|].
  cbn [deep_chain]. rewrite height_cons, IH. cbn [height]. lia.
Qed.

Lemma deep_chain_preorder (k : nat) : preorder (deep_chain k) = chain_labels k.
Proof.
  induction k as [|k IH]; [reflexivity|].
  cbn [deep_chain chain_labels]. rewrite preorder_node.
  cbn [get_value get_children flat_map]. now rewrite app_nil_r, IH.
Qed.

Lemma chain_labels_length (k : nat) :
  List.length (chain_labels k) = S k.
Proof.
  induction k as [|k IH]; [reflexivity|].
  cbn [chain_labels List.length]. now rewrite IH.
Qed.

(** What a call of the generator does, by the room on the stack: with
    room for [depth + 1] frames (one frame when [depth] is negative) it
    returns the chain, with less it ends in the interpreter's error.  Any
    fuel from [depth] on gives the same. *)
Lemma generate_deep_tree_at_cases (overflow : string) (fuel : nat) :
  forall room depth : Z,
    (Z.to_nat depth <= fuel)%nat ->
    generate_deep_tree_at overflow fuel room depth =
    if Z.max 0 depth + 1 <=? room then Return (deep_chain (Z.to_nat depth))
    else Raise (RecursionError overflow).
Proof.
  induction fuel as [|fuel IH]; intros room depth Hf.
  - cbn [generate_deep_tree_at].
    destruct (Z.leb_spec room 0) as [Hr|Hr].
    + destruct (Z.leb_spec (Z.max 0 depth + 1) room); [lia | reflexivity].
    + destruct (Z.leb_spec depth 0) as [Hd|Hd]; [|lia].
      replace (Z.to_nat depth) with O by lia.
      destruct (Z.leb_spec (Z.max 0 depth + 1) room); [reflexivity | lia].
  - cbn [generate_deep_tree_at].
    destruct (Z.leb_spec room 0) as [Hr|Hr].
    + destruct (Z.leb_spec (Z.max 0 depth + 1) room); [lia | reflexivity].
    + destruct (Z.leb_spec depth 0) as [Hd|Hd].
      * replace (Z.to_nat depth) with O by lia.
        destruct (Z.leb_spec (Z.max 0 depth + 1) room); [reflexivity | lia].
      * rewrite IH by lia.
        destruct (Z.leb_spec (Z.max 0 (depth - 1) + 1) (room - 1));
          destruct (Z.leb_spec (Z.max 0 depth + 1) room); try lia;
          [|reflexivity].
        replace (Z.to_nat depth) with (S (Z.to_nat (depth - 1))) by lia.
        cbn [bind deep_chain].
        now replace (Z.of_nat (S (Z.to_nat (depth - 1)))) with depth by lia.
Qed.

Lemma generate_deep_tree_cases (overflow : string) (room depth : Z) :
  generate_deep_tree overflow room depth =
  if Z.max 0 depth + 1 <=? room then Return (deep_chain (Z.to_nat depth))
  else Raise (RecursionError overflow).
Proof.
  unfold generate_deep_tree. now apply generate_deep_tree_at_cases.
Qed.

(** C9, as the code has it.  For [depth >= 0] and a stack with room for the
    [depth + 1] nested calls, [generate_deep_tree] returns a tree; the tree
    is a chain, every node having at most one child; its pre-order
    traversal has exactly [depth + 1] elements; and whatever the state of
    the stack, a tree returned for that depth is this one. *)
Theorem generate_deep_tree_chain (overflow : string) (room depth : Z) :
  0 <= depth -> depth + 1 <= room ->
  exists t : tree,
    generate_deep_tree overflow room depth = Return t /\
    is_chain t = true /\
    len (RecursiveAlgorithms.tree_traversal_iterative t) = depth + 1 /\
    forall (overflow' : string) (room' : Z) (t' : tree),
      generate_deep_tree overflow' room' depth = Return t' -> t' = t.
Proof.
  intros Hd Hr. exists (deep_chain (Z.to_nat depth)).
  split; [|split; [|split]].
  - rewrite generate_deep_tree_cases.
    destruct (Z.leb_spec (Z.max 0 depth + 1) room); [reflexivity | lia].
  - apply deep_chain_is_chain.
  - rewrite tree_traversal_iterative_spec by apply deep_chain_truthy.
    rewrite deep_chain_preorder. unfold len. rewrite chain_labels_length. lia.
  - intros overflow' room' t'. rewrite generate_deep_tree_cases.
    destruct (Z.max 0 depth + 1 <=? room'); [|discriminate].
    now intros [= <-].
Qed.

End Generator.

Lemma generate_deep_tree_chain_witness :
  exists t : tree,
    OptimizedRecursion.generate_deep_tree
      (stack_overflow cpython)
      (recursion_limit cpython - stack_depth cpython) 7 = Return t /\
    is_chain t = true /\
    len (RecursiveAlgorithms.tree_traversal_iterative t) = 7 + 1 /\
    forall (overflow' : string) (room' : Z) (t' : tree),
      OptimizedRecursion.generate_deep_tree overflow' room' 7 = Return t' ->
      t' = t.
Proof.
  apply (generate_deep_tree_chain
           (stack_overflow cpython)
           (recursion_limit cpython - stack_depth cpython) 7);
    vm_compute; discriminate.
Defined.

(** In a dispatch on an interpreter with the default limit of 1000 frames,
    [generate_deep_tree(1000)] returns no tree at all: its 1001 nested
    calls do not fit, and it ends in the interpreter's [RecursionError]. *)
Lemma generate_deep_tree_1000_overflows :
  OptimizedRecursion.generate_deep_tree
    (stack_overflow cpython)
    (recursion_limit cpython - stack_depth cpython) 1000 =
  Raise (RecursionError "maximum recursion depth exceeded") /\
  forall t : tree,
    OptimizedRecursion.generate_deep_tree
      (stack_overflow cpython)
      (recursion_limit cpython - stack_depth cpython) 1000 <> Return t.
Proof.
  assert (H : OptimizedRecursion.generate_deep_tree
                (stack_overflow cpython)
                (recursion_limit cpython - stack_depth cpython) 1000 =
              Raise (RecursionError "maximum recursion depth exceeded")).
  { rewrite generate_deep_tree_cases. reflexivity. }
  split; [exact H|]. intros t Ht. rewrite H in Ht. discriminate Ht.
Qed.

(** ** One dispatch *)

Section OneDispatch.

Import OptimizedRecursion.

Variable h : host.
Variable E : engine.

(** The three ways through [process_recursive_task]. *)
Lemma process_recursive_task_success
  (st : state) (algo : string) (n : Z) (opt : bool) (res : result) :
  compute h E algo n opt = Return res ->
  process_recursive_task h E st algo n opt =
  (let k := clock_reads st in
   let id := request_counter st + 1 in
   let elapsed := (clock h (S k) - clock h k)%Q in
   ({| request_counter := id;
       error_counter := error_counter st;
       recursion_depth_metrics :=
         (recursion_depth_metrics st ++
            [{| timestamp := clock h (S (S k));
                recursion_depth := n;
                execution_time := elapsed;
                memory_usage := traced_peak h id;
                algorithm := algo;
                success := true |}])%list;
       clock_reads := S (S (S k)) |},
    Success res elapsed (traced_peak h id) n id)).
Proof.
  intros Hc. unfold process_recursive_task. rewrite Hc. reflexivity.
Qed.

Lemma process_recursive_task_recursion_error
  (st : state) (algo : string) (n : Z) (opt : bool) (e : exn) :
  compute h E algo n opt = Raise e -> is_recursion_error e = true ->
  process_recursive_task h E st algo n opt =
  (let k := clock_reads st in
   let id := request_counter st + 1 in
   ({| request_counter := id;
       error_counter := error_counter st + 1;
       recursion_depth_metrics :=
         (recursion_depth_metrics st ++
            [{| timestamp := clock h (S (S k));
                recursion_depth := n;
                execution_time := (clock h (S k) - clock h k)%Q;
                memory_usage := 0;
                algorithm := algo;
                success := false |}])%list;
       clock_reads := S (S (S (S k))) |},
    Failure ("RecursionError: " ++ exn_message e)%string
            (clock h (S (S (S k))) - clock h k)%Q n id)).
Proof.
  intros Hc He. unfold process_recursive_task. rewrite Hc, He. reflexivity.
Qed.

Lemma process_recursive_task_other_error
  (st : state) (algo : string) (n : Z) (opt : bool) (e : exn) :
  compute h E algo n opt = Raise e -> is_recursion_error e = false ->
  process_recursive_task h E st algo n opt =
  (let k := clock_reads st in
   let id := request_counter st + 1 in
   ({| request_counter := id;
       error_counter := error_counter st + 1;
       recursion_depth_metrics := recursion_depth_metrics st;
       clock_reads := S (S k) |},
    Failure ("Error: " ++ exn_message e)%string
            (clock h (S k) - clock h k)%Q n id)).
Proof.
  intros Hc He. unfold process_recursive_task. rewrite Hc, He. reflexivity.
Qed.

(** The validation at the head of the [try]. *)
Lemma compute_invalid (algo : string) (n : Z) (opt : bool) :
  n <= 0 \/ (n > 10000 /\ opt = false) ->
  compute h E algo n opt =
  Raise (ValueError (if n <=? 0 then "Depth must be positive"
                     else "Unoptimized recursion depth too high")).
Proof.
  intros Hn. unfold compute.
  destruct (Z.leb_spec n 0) as [Hle|Hgt]; [reflexivity|].
  destruct Hn as [Hn | [Hn ->]]; [lia|].
  destruct (Z.gtb_spec n 10000); [reflexivity | lia].
Qed.

Lemma compute_valid_naive (algo : string) (n : Z) :
  0 < n <= 10000 ->
  compute h E algo n false =
  if String.eqb algo "fibonacci" then
    if n >? 35 then
      Raise (RecursionError
               ("Naive Fibonacci too slow for n=" ++ str_int n)%string)
    else v <- fibonacci_naive E n ;; Return (Number v)
  else if String.eqb algo "tree_traversal" then
    tree <- generate_deep_tree (stack_overflow h)
              (recursion_limit h - stack_depth h) n ;;
    if n >? 500 then
      Raise (RecursionError
               ("Naive tree traversal too deep for n=" ++ str_int n)%string)
    else vs <- tree_traversal_naive E tree ;; Return (Values vs)
  else if String.eqb algo "pathfinding" then
    p <- pathfinding_naive E (generate_grid (Z.min n 20)) 0 0
           (Z.min (n - 1) 19) (Z.min (n - 1) 19) ;;
    Return (Path p)
  else Raise (ValueError ("Unknown algorithm: " ++ algo)%string).
Proof.
  intros Hn. unfold compute.
  destruct (Z.leb_spec n 0); [lia|].
  destruct (Z.gtb_spec n 10000); [lia|]. reflexivity.
Qed.

(** C3, as the code has it.  A naive Fibonacci dispatch with
    [35 < n <= 10000] fails with a [RecursionError] raised by the
    dispatcher's own guard, [n = 36] included: the failure is the same
    for every engine, so no engine routine runs.  With [n > 10000] the
    validation comes first and the failure is a [ValueError]. *)
Theorem naive_fibonacci_guard (st : state) (n : Z) :
  35 < n ->
  compute h E "fibonacci" n false =
  Raise (if n <=? 10000 then
           RecursionError ("Naive Fibonacci too slow for n=" ++ str_int n)
         else ValueError "Unoptimized recursion depth too high") /\
  exists t : Q,
    snd (process_recursive_task h E st "fibonacci" n false) =
    Failure (if n <=? 10000 then
               ("RecursionError: Naive Fibonacci too slow for n="
                  ++ str_int n)%string
             else "Error: Unoptimized recursion depth too high")
            t n (request_counter st + 1).
Proof.
  intros Hn. destruct (Z.leb_spec n 10000) as [Hle|Hgt].
  - assert (Hc : compute h E "fibonacci" n false =
                 Raise (RecursionError
                          ("Naive Fibonacci too slow for n=" ++ str_int n))).
    { rewrite compute_valid_naive by lia. cbn [String.eqb Ascii.eqb Bool.eqb].
      destruct (Z.gtb_spec n 35); [reflexivity | lia]. }
    split; [exact Hc|].
    rewrite (process_recursive_task_recursion_error _ _ _ _ _ Hc eq_refl).
    eexists. reflexivity.
  - assert (Hc := compute_invalid "fibonacci" n false
                    (or_intror (conj (Z.lt_gt _ _ Hgt) eq_refl))).
    destruct (Z.leb_spec n 0); [lia|]. split; [exact Hc|].
    rewrite (process_recursive_task_other_error _ _ _ _ _ Hc eq_refl).
    eexists. reflexivity.
Qed.

(** C4.  When the body of a dispatch raises a [RecursionError], from a
    guard of the dispatcher or from the engine, the dispatch returns: it
    appends exactly one metric, with [success = false], and its answer is
    a failure carrying the text of the error, an execution time, the
    requested depth and the request id. *)
Theorem depth_exceeded_recorded
  (st : state) (algo : string) (n : Z) (opt : bool) (msg : string) :
  compute h E algo n opt = Raise (RecursionError msg) ->
  exists (m : metric) (t : Q),
    process_recursive_task h E st algo n opt =
    ({| request_counter := request_counter st + 1;
        error_counter := error_counter st + 1;
        recursion_depth_metrics := (recursion_depth_metrics st ++ [m])%list;
        clock_reads := (clock_reads st + 4)%nat |},
     Failure ("RecursionError: " ++ msg)%string t n (request_counter st + 1))
    /\ success m = false /\ recursion_depth m = n /\ algorithm m = algo.
Proof.
  intros Hc.
  rewrite (process_recursive_task_recursion_error _ _ _ _ _ Hc eq_refl).
  cbn zeta. do 2 eexists. split.
  - replace (clock_reads st + 4)%nat with (S (S (S (S (clock_reads st)))))
      by lia.
    reflexivity.
  - repeat split.
Qed.

(** C5.  A dispatch with [depth <= 0], or with [depth > 10000] and
    [optimized = false], fails with a [ValueError]; the error counter goes
    up by one, the metric list is left as it was, and the outcome is the
    same whatever the engine is, so no engine routine runs. *)
Theorem validation_rejects
  (st : state) (algo : string) (n : Z) (opt : bool) :
  n <= 0 \/ (n > 10000 /\ opt = false) ->
  process_recursive_task h E st algo n opt =
  ({| request_counter := request_counter st + 1;
      error_counter := error_counter st + 1;
      recursion_depth_metrics := recursion_depth_metrics st;
      clock_reads := S (S (clock_reads st)) |},
   Failure (if n <=? 0 then "Error: Depth must be positive"
            else "Error: Unoptimized recursion depth too high")
           (clock h (S (clock_reads st)) - clock h (clock_reads st))%Q
           n (request_counter st + 1)) /\
  forall E' : engine,
    process_recursive_task h E' st algo n opt =
    process_recursive_task h E st algo n opt.
Proof.
  intros Hn.
  assert (He : forall E1 : engine,
             process_recursive_task h E1 st algo n opt =
             ({| request_counter := request_counter st + 1;
                 error_counter := error_counter st + 1;
                 recursion_depth_metrics := recursion_depth_metrics st;
                 clock_reads := S (S (clock_reads st)) |},
              Failure (if n <=? 0 then "Error: Depth must be positive"
                       else "Error: Unoptimized recursion depth too high")
                (clock h (S (clock_reads st)) - clock h (clock_reads st))%Q
                n (request_counter st + 1))).
  { intros E1. unfold process_recursive_task, compute.
    destruct (Z.leb_spec n 0) as [Hle|Hgt]; [reflexivity|].
    destruct Hn as [Hn | [Hn ->]]; [lia|].
    destruct (Z.gtb_spec n 10000); [reflexivity | lia]. }
  split; [apply He|]. intros E'. now rewrite !He.
Qed.

(** C6, as the code has it.  A failure in the body of a dispatch that is
    not a [RecursionError] is answered with a failure whose text is
    ["Error: "] followed by the message of the exception; the error
    counter goes up by one and no metric is appended. *)
Theorem other_failure_not_recorded
  (st : state) (algo : string) (n : Z) (opt : bool) (e : exn) :
  compute h E algo n opt = Raise e -> is_recursion_error e = false ->
  process_recursive_task h E st algo n opt =
  ({| request_counter := request_counter st + 1;
      error_counter := error_counter st + 1;
      recursion_depth_metrics := recursion_depth_metrics st;
      clock_reads := S (S (clock_reads st)) |},
   Failure ("Error: " ++ exn_message e)%string
           (clock h (S (clock_reads st)) - clock h (clock_reads st))%Q
           n (request_counter st + 1)).
Proof.
  intros Hc He.
  now rewrite (process_recursive_task_other_error _ _ _ _ _ Hc He).
Qed.

(** C10, as the code has it.  A naive tree traversal dispatch with
    [500 < depth <= 10000] ends in a depth error without the naive
    traversal running: the answer is a failure with a [RecursionError], one
    metric with [success = false] is appended, and the outcome is the same
    whatever the engine is.  The tree is built before the guard is
    reached: the error is the guard's own when the [depth + 1] nested calls
    of the generator fit on the stack, and the interpreter's otherwise. *)
Theorem naive_traversal_guard (st : state) (n : Z) :
  500 < n <= 10000 ->
  (exists (m : metric) (t : Q),
      process_recursive_task h E st "tree_traversal" n false =
      ({| request_counter := request_counter st + 1;
          error_counter := error_counter st + 1;
          recursion_depth_metrics :=
            (recursion_depth_metrics st ++ [m])%list;
          clock_reads := (clock_reads st + 4)%nat |},
       Failure ("RecursionError: " ++ traversal_refusal h n)%string
               t n (request_counter st + 1))
      /\ success m = false /\ recursion_depth m = n) /\
  forall E' : engine,
    process_recursive_task h E' st "tree_traversal" n false =
    process_recursive_task h E st "tree_traversal" n false.
Proof.
  intros Hn.
  assert (Hc : forall E1 : engine,
             compute h E1 "tree_traversal" n false =
             Raise (RecursionError (traversal_refusal h n))).
  { intros E1. unfold compute, traversal_refusal.
    destruct (Z.leb_spec n 0); [lia|].
    destruct (Z.gtb_spec n 10000); [lia|].
    cbn [String.eqb Ascii.eqb Bool.eqb andb negb].
    rewrite generate_deep_tree_cases.
    replace (Z.max 0 n + 1) with (n + 1) by lia.
    destruct (n + 1 <=? recursion_limit h - stack_depth h);
      [|reflexivity].
    cbn [bind]. destruct (Z.gtb_spec n 500); [reflexivity | lia]. }
  split.
  - rewrite (process_recursive_task_recursion_error _ _ _ _ _ (Hc E) eq_refl).
    cbn zeta. do 2 eexists. split.
    + replace (clock_reads st + 4)%nat with (S (S (S (S (clock_reads st)))))
        by lia.
      reflexivity.
    + split; reflexivity.
  - intros E'. unfold process_recursive_task. now rewrite !Hc.
Qed.

End OneDispatch.

(** ** Many dispatches and the statistics *)

Section ManyDispatches.

Import OptimizedRecursion.

Variable h : host.
Variable E : engine.

(** What one dispatch does to the counters and the metric list, by the
    way it ends. *)
Lemma process_recursive_task_effect
  (st : state) (algo : string) (n : Z) (opt : bool) :
  let done := process_recursive_task h E st algo n opt in
  request_counter (fst done) = request_counter st + 1 /\
  match outcome_of h E algo n opt with
  | Succeeded =>
      succeeded (snd done) = true /\
      exists m : metric,
        recursion_depth_metrics (fst done) =
        (recursion_depth_metrics st ++ [m])%list /\
        success m = true /\ execution_time m = response_time (snd done)
  | FailedRecorded =>
      succeeded (snd done) = false /\
      exists m : metric,
        recursion_depth_metrics (fst done) =
        (recursion_depth_metrics st ++ [m])%list /\
        success m = false
  | FailedUnrecorded =>
      succeeded (snd done) = false /\
      recursion_depth_metrics (fst done) = recursion_depth_metrics st
  end.
Proof.
  unfold outcome_of. cbn zeta.
  destruct (compute h E algo n opt) as [res|e] eqn:Hc.
  - rewrite (process_recursive_task_success h E st _ _ _ _ Hc).
    cbn zeta. cbn [fst snd request_counter recursion_depth_metrics].
    split; [reflexivity|]. split; [reflexivity|].
    eexists. split; [reflexivity|]. split; reflexivity.
  - destruct (is_recursion_error e) eqn:He.
    + rewrite (process_recursive_task_recursion_error h E st _ _ _ _ Hc He).
      cbn zeta. cbn [fst snd request_counter recursion_depth_metrics].
      split; [reflexivity|]. split; [reflexivity|].
      eexists. split; reflexivity.
    + rewrite (process_recursive_task_other_error h E st _ _ _ _ Hc He).
      cbn zeta. cbn [fst snd request_counter recursion_depth_metrics].
      split; [reflexivity|]. split; reflexivity.
Qed.

Lemma count_outcome_cons (o : outcome) (r : request) (rs : list request) :
  count_outcome h E o (r :: rs) =
  (if outcome_eqb
        (outcome_of h E (req_algorithm r) (req_depth r) (optimized_of r)) o
   then 1 else 0) + count_outcome h E o rs.
Proof.
  unfold count_outcome, len. cbn [filter].
  destruct (outcome_eqb _ o); cbn [List.length]; lia.
Qed.

(** Every request ends one of the three ways. *)
Lemma count_outcome_total (rs : list request) :
  len rs =
  count_outcome h E Succeeded rs + count_outcome h E FailedRecorded rs
  + count_outcome h E FailedUnrecorded rs.
Proof.
  induction rs as [|r rs IH]; [reflexivity|].
  rewrite !count_outcome_cons. unfold len in *. cbn [List.length].
  destruct (outcome_of h E _ _ _); cbn [outcome_eqb]; lia.
Qed.

Lemma filter_snoc {A : Type} (f : A -> bool) (l : list A) (a : A) :
  filter f (l ++ [a]) = (filter f l ++ if f a then [a] else [])%list.
Proof. rewrite filter_app. cbn [filter]. now destruct (f a). Qed.

(** The counters and the metric list after a batch. *)
Lemma process_multiple_requests_effect (rs : list request) :
  forall st : state,
    let done := process_multiple_requests h E st rs in
    request_counter (fst done) = request_counter st + len rs /\
    exists new : list metric,
      recursion_depth_metrics (fst done) =
      (recursion_depth_metrics st ++ new)%list /\
      len (filter success new) = count_outcome h E Succeeded rs /\
      len (filter (fun m => negb (success m)) new) =
      count_outcome h E FailedRecorded rs /\
      map execution_time (filter success new) =
      map response_time (filter succeeded (snd done)).
Proof.
  induction rs as [|r rs IH]; intros st; cbn zeta.
  - cbn [process_multiple_requests fst snd]. split; [unfold len; cbn; lia|].
    exists []. rewrite app_nil_r. repeat split.
  - cbn [process_multiple_requests].
    pose proof (process_recursive_task_effect st (req_algorithm r)
                  (req_depth r) (optimized_of r)) as H1.
    cbn zeta in H1.
    change (match req_optimized r with Some b => b | None => true end)
      with (optimized_of r).
    destruct (process_recursive_task h E st (req_algorithm r) (req_depth r)
                (optimized_of r)) as [st1 out].
    specialize (IH st1). cbn zeta in IH.
    destruct (process_multiple_requests h E st1 rs) as [st2 outs].
    cbn [fst snd] in *.
    destruct H1 as [Hrc H1]. destruct IH as (Hrc2 & new & Hm & Hs & Hf & Ht).
    split; [unfold len in *; cbn [List.length]; lia|].
    rewrite !count_outcome_cons.
    destruct (outcome_of h E (req_algorithm r) (req_depth r) (optimized_of r));
      cbn [outcome_eqb filter].
    + destruct H1 as (-> & m & Hm1 & Hsm & Htm).
      exists (m :: new). rewrite Hm, Hm1, <- app_assoc. cbn [app filter map].
      rewrite Hsm. cbn [negb map]. rewrite Htm, Ht.
      repeat split; unfold len in *; cbn [List.length]; lia.
    + destruct H1 as (-> & m & Hm1 & Hsm).
      exists (m :: new). rewrite Hm, Hm1, <- app_assoc. cbn [app filter map].
      rewrite Hsm. cbn [negb]. rewrite Ht.
      repeat split; unfold len in *; cbn [List.length]; lia.
    + destruct H1 as (-> & Hm1).
      exists new. rewrite Hm, Hm1.
      repeat split; try assumption; lia.
Qed.

(** C7, as the code has it.  After a batch of dispatches on a dispatcher
    just built, of which [N] succeed, [M] fail with a recorded
    [RecursionError] and [K] fail otherwise, the statistics report
    [N + M + K] requests in all, [N] successful and [M] failed ones, the
    error rate [M / (N + M + K) * 100] ([0] for an empty batch), and the
    mean and the maximum of the execution times of the successful
    dispatches alone. *)
Theorem stats_after_dispatches (k : nat) (rs : list request) :
  let N := count_outcome h E Succeeded rs in
  let M := count_outcome h E FailedRecorded rs in
  let K := count_outcome h E FailedUnrecorded rs in
  let done := process_multiple_requests h E (init k) rs in
  let times := map response_time (filter succeeded (snd done)) in
  let s := get_performance_stats (fst done) in
  total_requests s = N + M + K /\
  successful_requests s = N /\
  failed_requests s = M /\
  error_rate s =
    (if N + M + K >? 0 then inject_Z M / inject_Z (N + M + K) * 100
     else 0)%Q /\
  avg_execution_time s =
    match times with
    | [] => 0%Q
    | _ :: _ => (Qsum times / inject_Z N)%Q
    end /\
  max_execution_time s = Qmaximum times.
Proof.
  cbn zeta.
  destruct (process_multiple_requests_effect rs (init k))
    as (Hrc & new & Hm & Hs & Hf & Ht).
  cbn zeta in *. cbn [init request_counter recursion_depth_metrics app] in *.
  rewrite (count_outcome_total rs) in Hrc. rewrite Z.add_0_l in Hrc.
  unfold get_performance_stats.
  cbn [total_requests successful_requests failed_requests error_rate
       avg_execution_time max_execution_time].
  rewrite Hm, Hrc, Hs, Hf, Ht.
  repeat split.
  destruct (map response_time _) as [|t ts] eqn:Hts; [reflexivity|].
  replace (len (t :: ts)) with (count_outcome h E Succeeded rs);
    [reflexivity|].
  rewrite <- Hs, <- Ht. unfold len. now rewrite length_map.
Qed.

End ManyDispatches.

(** ** The theorems at concrete requests *)

Section Examples.

Import OptimizedRecursion.

Lemma naive_fibonacci_guard_witness :
  compute cpython cpython_engine "fibonacci" 36 false =
  Raise (RecursionError "Naive Fibonacci too slow for n=36") /\
  exists t : Q,
    snd (process_recursive_task cpython cpython_engine (init 0) "fibonacci" 36 false) =
    Failure "RecursionError: Naive Fibonacci too slow for n=36" t 36 1.
Proof.
  apply (naive_fibonacci_guard cpython cpython_engine (init 0) 36). lia.
Defined.

(** A naive Fibonacci dispatch with [n = 10001] does not end in a
    [RecursionError]: the validation rejects it first, and nothing is
    recorded. *)
Lemma naive_fibonacci_10001_is_invalid_input :
  (~ exists msg : string,
        compute cpython cpython_engine "fibonacci" 10001 false = Raise (RecursionError msg)) /\
  exists t : Q,
    process_recursive_task cpython cpython_engine (init 0) "fibonacci" 10001 false =
    ({| request_counter := 1; error_counter := 1;
        recursion_depth_metrics := []; clock_reads := 2 |},
     Failure "Error: Unoptimized recursion depth too high" t 10001 1).
Proof.
  split.
  - intros [msg H]. vm_compute in H. discriminate H.
  - eexists. reflexivity.
Qed.

Lemma depth_exceeded_recorded_witness :
  exists (m : metric) (t : Q),
    process_recursive_task cpython cpython_engine (init 0) "fibonacci" 36 false =
    ({| request_counter := 1; error_counter := 1;
        recursion_depth_metrics := [m]; clock_reads := 4 |},
     Failure "RecursionError: Naive Fibonacci too slow for n=36" t 36 1)
    /\ success m = false /\ recursion_depth m = 36
    /\ algorithm m = "fibonacci".
Proof.
  apply (depth_exceeded_recorded cpython cpython_engine (init 0) "fibonacci" 36 false
           "Naive Fibonacci too slow for n=36").
  reflexivity.
Defined.

(** The same when the [RecursionError] comes from the engine. *)
Lemma engine_recursion_error_recorded :
  exists (m : metric) (t : Q),
    process_recursive_task loud_host (recursion_engine loud_host) (init 0)
      "fibonacci" 5 false =
    ({| request_counter := 1; error_counter := 1;
        recursion_depth_metrics := [m]; clock_reads := 4 |},
     Failure "RecursionError: Approaching recursion limit at depth 2000" t 5 1)
    /\ success m = false /\ recursion_depth m = 5.
Proof. do 2 eexists. split; [reflexivity | split; reflexivity]. Qed.

Lemma validation_rejects_witness :
  process_recursive_task cpython cpython_engine (init 0) "fibonacci" 20000 false =
  ({| request_counter := 1; error_counter := 1;
      recursion_depth_metrics := []; clock_reads := 2 |},
   Failure "Error: Unoptimized recursion depth too high"
           (clock cpython 1 - clock cpython 0)%Q 20000 1) /\
  forall E' : engine,
    process_recursive_task cpython E' (init 0) "fibonacci" 20000 false =
    process_recursive_task cpython cpython_engine (init 0) "fibonacci" 20000 false.
Proof.
  apply (validation_rejects cpython cpython_engine (init 0) "fibonacci" 20000 false).
  right. split; [reflexivity | reflexivity].
Defined.

(** An exception of the engine that is not a [RecursionError], and an
    unknown algorithm name: the answer carries the message of the
    exception, and no metric is recorded. *)
Lemma internal_fault_leaves_no_metric :
  let E1 := recursion_engine shallow_host in
  let done :=
    process_recursive_task shallow_host E1 (init 0) "fibonacci" 5 false in
  let done' :=
    process_recursive_task cpython cpython_engine (init 0) "sorting" 5 true in
  compute shallow_host E1 "fibonacci" 5 false =
  Raise (AttributeError "'NoneType' object has no attribute 'f_code'") /\
  recursion_depth_metrics (fst done) = [] /\
  error_counter (fst done) = 1 /\
  (exists t : Q,
      snd done =
      Failure "Error: 'NoneType' object has no attribute 'f_code'" t 5 1) /\
  recursion_depth_metrics (fst done') = [] /\
  exists t : Q,
    snd done' = Failure "Error: Unknown algorithm: sorting" t 5 1.
Proof.
  cbn zeta. repeat split; try reflexivity; eexists; reflexivity.
Qed.

Lemma other_failure_not_recorded_witness :
  process_recursive_task cpython cpython_engine (init 0) "sorting" 5 true =
  ({| request_counter := 1; error_counter := 1;
      recursion_depth_metrics := []; clock_reads := 2 |},
   Failure "Error: Unknown algorithm: sorting"
           (clock cpython 1 - clock cpython 0)%Q 5 1).
Proof.
  apply (other_failure_not_recorded cpython cpython_engine (init 0) "sorting" 5 true
           (ValueError "Unknown algorithm: sorting"));
    reflexivity.
Defined.

(** One success, one recorded failure and one rejected request: the
    statistics count three requests, not two, and the error rate is a
    third, not a half. *)
Lemma stats_count_every_dispatch :
  let done := process_multiple_requests cpython cpython_engine (init 0) sample_requests in
  let s := get_performance_stats (fst done) in
  count_outcome cpython cpython_engine Succeeded sample_requests = 1 /\
  count_outcome cpython cpython_engine FailedRecorded sample_requests = 1 /\
  len (recursion_depth_metrics (fst done)) = 2 /\
  total_requests s = 3 /\
  (error_rate s == 100 # 3)%Q /\
  ~ (error_rate s == 50)%Q.
Proof.
  cbn zeta. repeat split; try reflexivity.
  vm_compute. discriminate.
Qed.

Lemma naive_traversal_guard_witness :
  (exists (m : metric) (t : Q),
      process_recursive_task cpython cpython_engine (init 0) "tree_traversal" 501 false =
      ({| request_counter := 1; error_counter := 1;
          recursion_depth_metrics := [m]; clock_reads := 4 |},
       Failure "RecursionError: Naive tree traversal too deep for n=501"
               t 501 1)
      /\ success m = false /\ recursion_depth m = 501) /\
  forall E' : engine,
    process_recursive_task cpython E' (init 0) "tree_traversal" 501 false =
    process_recursive_task cpython cpython_engine (init 0) "tree_traversal" 501 false.
Proof.
  apply (naive_traversal_guard cpython cpython_engine (init 0) 501). lia.
Defined.

(** A naive tree traversal dispatch with [depth = 10001] does not end in
    a [RecursionError] and leaves no metric: the validation rejects it. *)
Lemma naive_traversal_10001_is_invalid_input :
  let done :=
    process_recursive_task cpython cpython_engine (init 0) "tree_traversal" 10001 false
  in
  (~ exists msg : string,
        compute cpython cpython_engine "tree_traversal" 10001 false =
        Raise (RecursionError msg)) /\
  recursion_depth_metrics (fst done) = [] /\
  exists t : Q,
    snd done = Failure "Error: Unoptimized recursion depth too high" t 10001 1.
Proof.
  cbn zeta. split; [|split].
  - intros [msg H]. vm_compute in H. discriminate H.
  - reflexivity.
  - eexists. reflexivity.
Qed.

End Examples.

(** ** Fibonacci: every input, every host, and the memoized variant *)

Section FibonacciMore.

Import RecursiveAlgorithms.

(** X1.  [fibonacci_iterative] rejects a negative [n] with a [ValueError]
    and for every other [n], however large, returns F(n). *)
Theorem fibonacci_iterative_closed_form (n : Z) :
  fibonacci_iterative n =
  if n <? 0 then
    Raise (ValueError "Fibonacci not defined for negative numbers")
  else Return (fib_spec (Z.to_nat n)).
Proof.
  destruct (Z.ltb_spec n 0).
  - now apply fibonacci_iterative_negative.
  - now apply fibonacci_iterative_spec.
Qed.

Lemma fibonacci_naive_at_sound (h : host) (fuel : nat) :
  forall (level : nat) (n : Z) (r : exec Z),
    fibonacci_naive_at h fuel level n = Some r ->
    match r with
    | Return v => 0 <= n /\ v = fib_spec (Z.to_nat n)
    | Raise (ValueError _) => n < 0
    | Raise (RecursionError _) | Raise (AttributeError _) => 2 <= n
    | Raise (IndexError _) => False
    end.
Proof.
  induction fuel as [|fuel IH]; intros level n r;
    cbn [fibonacci_naive_at];
    (destruct (Z.ltb_spec n 0); [intros [= <-]; assumption|]);
    (destruct (Z.leb_spec n 1);
     [intros [= <-]; split; [assumption|];
      assert (n = 0 \/ n = 1) as [-> | ->] by lia; reflexivity|]);
    (destruct (frame_names h level) as [| |c];
     [intros [= <-]; lia | intros [= <-]; lia |]);
    (destruct (c >? max_recursion_depth h); [intros [= <-]; lia|]).
  - discriminate.
  - destruct (fibonacci_naive_at h fuel (S level) (n - 1)) as [[a|e]|] eqn:H1;
      [|specialize (IH _ _ _ H1); intros [= <-]; destruct e; cbn in *; lia
       |discriminate].
    destruct (fibonacci_naive_at h fuel (S level) (n - 2)) as [[b|e]|] eqn:H2;
      [|specialize (IH _ _ _ H2); intros [= <-]; destruct e; cbn in *; lia
       |discriminate].
    intros [= <-]. split; [lia|].
    destruct (IH _ _ _ H1) as [_ ->]. destruct (IH _ _ _ H2) as [_ ->].
    replace (Z.to_nat n) with (S (S (Z.to_nat (n - 2)))) by lia.
    rewrite fib_spec_step.
    now replace (Z.to_nat (n - 1)) with (S (Z.to_nat (n - 2))) by lia.
Qed.

(** X2.  Whatever the host reports to the frame check, [fibonacci_naive]
    never returns a wrong value: a value returned is F(n), a [ValueError]
    means [n < 0], and the only other failures are those of the frame check
    itself, which is reached for [n >= 2] alone. *)
Theorem fibonacci_naive_sound (h : host) (n : Z) :
  match fibonacci_naive h n with
  | Return v => 0 <= n /\ v = fib_spec (Z.to_nat n)
  | Raise (ValueError _) => n < 0
  | Raise (RecursionError _) | Raise (AttributeError _) => 2 <= n
  | Raise (IndexError _) => False
  end.
Proof.
  exact (fibonacci_naive_at_sound h _ _ _ _ (fibonacci_naive_defined h n)).
Qed.

(** A call deeper than 1000 raises at once, so fuel for the levels left
    below the ceiling is enough. *)
Lemma fibonacci_memoized_at_total (fuel : nat) :
  forall (memo : memo_table) (n depth : Z),
    1001 <= depth + Z.of_nat fuel ->
    exists r, fibonacci_memoized_at fuel memo n depth = Some r.
Proof.
  induction fuel as [|fuel IH]; intros memo n depth Hf;
    cbn [fibonacci_memoized_at];
    (destruct (Z.gtb_spec depth 1000); [eauto|]); [lia|].
  destruct (n <? 0); [eauto|].
  destruct (ZMap.find n memo); [eauto|].
  destruct (n <=? 1); [eauto|].
  destruct (IH memo (n - 1) (depth + 1)) as [[[a|e] memo1] ->]; [lia| |eauto].
  destruct (IH memo1 (n - 2) (depth + 1)) as [[[b|e] memo2] ->]; [lia| |];
    eauto.
Qed.

Lemma fibonacci_memoized_defined (memo : memo_table) (n : Z) :
  fibonacci_memoized_at 1002 memo n 0 = Some (fibonacci_memoized memo n).
Proof.
  unfold fibonacci_memoized.
  now destruct (fibonacci_memoized_at_total 1002 memo n 0) as [r ->].
Qed.

Lemma memo_extends_refl (memo : memo_table) : memo_extends memo memo.
Proof. intros k v H. exact H. Qed.

Lemma memo_extends_trans (m1 m2 m3 : memo_table) :
  memo_extends m1 m2 -> memo_extends m2 m3 -> memo_extends m1 m3.
Proof. intros H12 H23 k v H. apply H23, H12, H. Qed.

(** The memoized recursion under the ceiling, from a consistent memo. *)
Lemma fibonacci_memoized_at_spec (fuel : nat) :
  forall (memo : memo_table) (n depth : Z),
    memo_consistent memo ->
    0 <= n -> depth <= 1000 -> (2 <= n -> depth + n <= 1001) ->
    (Z.to_nat n <= S fuel)%nat ->
    exists memo' : memo_table,
      fibonacci_memoized_at fuel memo n depth =
      Some (Return (fib_spec (Z.to_nat n)), memo') /\
      memo_consistent memo' /\ memo_extends memo memo' /\
      (2 <= n -> ZMap.find n memo' = Some (fib_spec (Z.to_nat n))).
Proof.
  induction fuel as [|fuel IH]; intros memo n depth Hc Hn Hd Hdn Hf;
    cbn [fibonacci_memoized_at];
    (destruct (Z.gtb_spec depth 1000); [lia|]);
    (destruct (Z.ltb_spec n 0); [lia|]);
    (destruct (ZMap.find n memo) as [v|] eqn:Hfind;
     [exists memo; assert (Hv := Hc n v Hn Hfind); subst v;
      split; [reflexivity|]; split; [assumption|];
      split; [apply memo_extends_refl | intros _; exact Hfind]|]);
    (destruct (Z.leb_spec n 1);
     [exists memo;
      assert (n = 0 \/ n = 1) as [-> | ->] by lia;
      (split; [reflexivity|]; split; [assumption|];
       split; [apply memo_extends_refl | lia])|]).
  - lia.
  - destruct (IH memo (n - 1) (depth + 1) Hc)
      as (memo1 & -> & Hc1 & He1 & _); try lia.
    destruct (IH memo1 (n - 2) (depth + 1) Hc1)
      as (memo2 & -> & Hc2 & He2 & _); try lia.
    assert (Hfib : fib_spec (Z.to_nat (n - 1)) + fib_spec (Z.to_nat (n - 2))
                   = fib_spec (Z.to_nat n)).
    { replace (Z.to_nat n) with (S (S (Z.to_nat (n - 2)))) by lia.
      rewrite fib_spec_step.
      now replace (Z.to_nat (n - 1)) with (S (Z.to_nat (n - 2))) by lia. }
    cbn zeta. rewrite Hfib. eexists. split; [reflexivity|].
    split; [|split].
    + intros k v Hk. destruct (Z.eq_dec n k) as [<-|Hne].
      * rewrite ZMapFacts.add_eq_o by reflexivity. now intros [= <-].
      * rewrite ZMapFacts.add_neq_o by assumption. now apply Hc2.
    + intros k v Hk. destruct (Z.eq_dec n k) as [<-|Hne].
      * congruence.
      * rewrite ZMapFacts.add_neq_o by assumption. now apply He2, He1.
    + intros _. now rewrite ZMapFacts.add_eq_o.
Qed.

(** However a call ends, from a consistent memo: a value returned is
    F(n), the only failure is a [RecursionError], and the memo is still
    consistent and has kept its entries. *)
Lemma fibonacci_memoized_at_sound (fuel : nat) :
  forall (memo : memo_table) (n depth : Z) (r : exec Z) (memo' : memo_table),
    memo_consistent memo -> 0 <= n ->
    fibonacci_memoized_at fuel memo n depth = Some (r, memo') ->
    memo_consistent memo' /\ memo_extends memo memo' /\
    match r with
    | Return v => v = fib_spec (Z.to_nat n)
    | Raise (RecursionError _) => True
    | Raise _ => False
    end.
Proof.
  induction fuel as [|fuel IH]; intros memo n depth r memo' Hc Hn;
    cbn [fibonacci_memoized_at];
    (destruct (depth >? 1000);
     [intros [= <- <-]; split; [assumption|];
      split; [apply memo_extends_refl | exact I]|]);
    (destruct (Z.ltb_spec n 0); [lia|]);
    (destruct (ZMap.find n memo) as [v|] eqn:Hfind;
     [intros [= <- <-]; split; [assumption|];
      split; [apply memo_extends_refl | now apply Hc]|]);
    (destruct (Z.leb_spec n 1);
     [intros [= <- <-]; split; [assumption|];
      split; [apply memo_extends_refl|];
      assert (n = 0 \/ n = 1) as [-> | ->] by lia; reflexivity|]).
  - discriminate.
  - assert (Hn1 : 0 <= n - 1) by lia. assert (Hn2 : 0 <= n - 2) by lia.
    destruct (fibonacci_memoized_at fuel memo (n - 1) (depth + 1))
      as [[[a|e] memo1]|] eqn:H1; [| |discriminate].
    + destruct (IH _ _ _ _ _ Hc Hn1 H1) as (Hc1 & He1 & ->).
      destruct (fibonacci_memoized_at fuel memo1 (n - 2) (depth + 1))
        as [[[b|e] memo2]|] eqn:H2; [| |discriminate].
      * destruct (IH _ _ _ _ _ Hc1 Hn2 H2) as (Hc2 & He2 & ->).
        intros [= <- <-].
        assert (Hfib : fib_spec (Z.to_nat (n - 1))
                       + fib_spec (Z.to_nat (n - 2))
                       = fib_spec (Z.to_nat n)).
        { replace (Z.to_nat n) with (S (S (Z.to_nat (n - 2)))) by lia.
          rewrite fib_spec_step.
          now replace (Z.to_nat (n - 1)) with (S (Z.to_nat (n - 2))) by lia. }
        split; [|split; [|exact Hfib]].
        -- intros k v Hk. destruct (Z.eq_dec n k) as [<-|Hne].
           ++ rewrite ZMapFacts.add_eq_o by reflexivity.
              intros [= <-]. exact Hfib.
           ++ rewrite ZMapFacts.add_neq_o by assumption. now apply Hc2.
        -- intros k v Hk. destruct (Z.eq_dec n k) as [<-|Hne].
           ++ congruence.
           ++ rewrite ZMapFacts.add_neq_o by assumption. now apply He2, He1.
      * destruct (IH _ _ _ _ _ Hc1 Hn2 H2) as (Hc2 & He2 & Hr).
        intros [= <- <-]. split; [assumption|].
        split; [eapply memo_extends_trans; eassumption | exact Hr].
    + destruct (IH _ _ _ _ _ Hc Hn1 H1) as (Hc1 & He1 & Hr).
      intros [= <- <-]. auto.
Qed.

(** X3.  From a memo whose entries are Fibonacci numbers and for every
    [n >= 0], however a call of [fibonacci_memoized] ends, the memo it
    leaves still holds Fibonacci numbers only and keeps every entry it
    had; a value returned is F(n), the value [fibonacci_iterative]
    returns; and the only failure is a [RecursionError], which takes
    [n > 500]: up to there, where the calls nest no deeper than 500, the
    call returns. *)
Theorem fibonacci_memoized_correct (memo : memo_table) (n : Z) :
  memo_consistent memo -> 0 <= n ->
  memo_consistent (snd (fibonacci_memoized memo n)) /\
  memo_extends memo (snd (fibonacci_memoized memo n)) /\
  match fst (fibonacci_memoized memo n) with
  | Return v =>
      v = fib_spec (Z.to_nat n) /\ fibonacci_iterative n = Return v
  | Raise (RecursionError _) => 500 < n
  | Raise _ => False
  end.
Proof.
  intros Hc Hn.
  pose proof (fibonacci_memoized_defined memo n) as Hdef.
  destruct (fibonacci_memoized memo n) as [r memo'] eqn:Hrun.
  destruct (fibonacci_memoized_at_sound _ _ _ _ _ _ Hc Hn Hdef)
    as (Hc' & He & Hr).
  cbn [fst snd]. split; [assumption|]. split; [assumption|].
  destruct r as [v|e].
  - subst v. split; [reflexivity|]. now apply fibonacci_iterative_spec.
  - destruct e; try contradiction.
    destruct (Z.le_gt_cases n 500) as [Hle|Hgt]; [|lia].
    destruct (fibonacci_memoized_at_spec 1002 memo n 0 Hc)
      as (memo'' & Hat & _); try lia.
    rewrite Hat in Hdef. discriminate Hdef.
Qed.

Lemma fibonacci_memoized_at_cold (fuel : nat) :
  forall (memo : memo_table) (n depth : Z),
    depth <= 1001 -> 1 <= n - (1001 - depth) ->
    (forall k : Z, n - (1001 - depth) < k <= n -> ZMap.find k memo = None) ->
    1001 - depth <= Z.of_nat fuel ->
    fibonacci_memoized_at fuel memo n depth =
    Some (Raise (RecursionError "Maximum safe recursion depth exceeded"), memo).
Proof.
  induction fuel as [|fuel IH]; intros memo n depth Hd Hn Hm Hf;
    cbn [fibonacci_memoized_at];
    (destruct (Z.gtb_spec depth 1000); [reflexivity|]); [lia|].
  destruct (Z.ltb_spec n 0); [lia|].
  rewrite Hm by lia.
  destruct (Z.leb_spec n 1); [lia|].
  rewrite IH; [reflexivity | lia | lia | intros k Hk; apply Hm; lia | lia].
Qed.

(** X4.  When none of the 1001 keys from [n - 1000] to [n] is in the memo,
    as with an empty memo, [fibonacci_memoized n] for [n >= 1002] ends in a
    [RecursionError] and leaves the memo as it was: the calls nest with
    nothing stored until the depth check stops them. *)
Theorem fibonacci_memoized_cold_limit (memo : memo_table) (n : Z) :
  1002 <= n ->
  (forall k : Z, n - 1001 < k <= n -> ZMap.find k memo = None) ->
  exists msg : string,
    fibonacci_memoized memo n = (Raise (RecursionError msg), memo).
Proof.
  intros Hn Hm.
  pose proof (fibonacci_memoized_defined memo n) as Hdef.
  rewrite (fibonacci_memoized_at_cold 1002 memo n 0) in Hdef;
    [eexists; now injection Hdef as <- | lia | lia | | lia].
  intros k Hk. apply Hm. lia.
Qed.

End FibonacciMore.

Lemma fibonacci_memoized_correct_witness :
  memo_consistent
    (snd (RecursiveAlgorithms.fibonacci_memoized (ZMap.empty Z) 40)) /\
  memo_extends (ZMap.empty Z)
    (snd (RecursiveAlgorithms.fibonacci_memoized (ZMap.empty Z) 40)) /\
  match fst (RecursiveAlgorithms.fibonacci_memoized (ZMap.empty Z) 40) with
  | Return v =>
      v = fib_spec (Z.to_nat 40) /\
      RecursiveAlgorithms.fibonacci_iterative 40 = Return v
  | Raise (RecursionError _) => 500 < 40
  | Raise _ => False
  end.
Proof.
  apply (fibonacci_memoized_correct (ZMap.empty Z) 40).
  - intros k v _ H. rewrite ZMapFacts.empty_o in H. discriminate H.
  - lia.
Defined.

Lemma fibonacci_memoized_cold_limit_witness :
  exists msg : string,
    RecursiveAlgorithms.fibonacci_memoized (ZMap.empty Z) 1002 =
    (Raise (RecursionError msg), ZMap.empty Z).
Proof.
  apply (fibonacci_memoized_cold_limit (ZMap.empty Z) 1002).
  - lia.
  - intros k _. apply ZMapFacts.empty_o.
Defined.

(** ** Tree traversal: the ceiling of the naive version *)

Section TraversalMore.

Import RecursiveAlgorithms.

Lemma height_fits (v : option string) (cs : list tree) (bound : Z) :
  0 <= bound ->
  (height (Dict v (Some cs)) <= bound <->
   forall c, In c cs -> 1 + height c <= bound).
Proof.
  intros Hb. induction cs as [|c cs IH].
  - split; [intros _ c [] | intros _; cbn; lia].
  - rewrite height_cons. split.
    + intros H c' [<- | Hin]; [lia|]. apply IH; [lia | exact Hin].
    + intros H. pose proof (H c (or_introl eq_refl)).
      assert (height (Dict v (Some cs)) <= bound)
        by (apply IH; intros c' Hin; apply H; now right).
      lia.
Qed.

(** The naive traversal from any depth: the pre-order sequence when the
    tree fits under the ceiling, the [RecursionError] otherwise. *)
Lemma tree_traversal_naive_at_cases (t : tree) :
  forall depth : Z,
    0 <= depth ->
    tree_traversal_naive_at t depth =
    if depth + height t <=? 1000 then Return (preorder t)
    else Raise (RecursionError "Maximum recursion depth exceeded").
Proof.
  induction t as [v|v cs IH] using tree_nested_ind; intros depth H0.
  - cbn [tree_traversal_naive_at height].
    rewrite Z.add_0_r.
    destruct (Z.gtb_spec depth 1000), (Z.leb_spec depth 1000);
      try lia; reflexivity.
  - destruct (Z.leb_spec (depth + height (Dict v (Some cs))) 1000) as [Hle|Hgt].
    + apply tree_traversal_naive_at_spec; assumption.
    + cbn [tree_traversal_naive_at].
      destruct (Z.gtb_spec depth 1000); [reflexivity|].
      assert (Hbad : ~ forall c, In c cs -> 1 + height c <= 1000 - depth).
      { intros Hall. apply (height_fits v cs (1000 - depth)) in Hall; lia. }
      clear Hgt. generalize [v] as results.
      induction IH as [|c cs Hc _ IHcs]; intros results.
      * exfalso. apply Hbad. intros c [].
      * rewrite Hc by lia.
        destruct (Z.leb_spec (depth + 1 + height c) 1000) as [Hfit|Hno];
          [|reflexivity].
        cbn [bind]. apply IHcs. intros Hall. apply Hbad.
        intros c' [<- | Hin]; [lia | now apply Hall].
Qed.

(** X5.  A sequence [tree_traversal_naive] returns is the pre-order
    sequence of the tree, and then no node is more than 1000 levels below
    the root.  The only failure is a [RecursionError]: every tree deeper
    than 1000 levels ends in one, whatever else it holds, and none of at
    most 500 levels does. *)
Theorem tree_traversal_naive_ceiling (T : tree) :
  match tree_traversal_naive T with
  | Return vs => vs = preorder T /\ height T <= 1000
  | Raise (RecursionError _) => 500 < height T
  | Raise _ => False
  end /\
  (1000 < height T ->
   exists msg : string, tree_traversal_naive T = Raise (RecursionError msg)).
Proof.
  unfold tree_traversal_naive.
  rewrite tree_traversal_naive_at_cases by lia. cbn [Z.add].
  destruct (Z.leb_spec (height T) 1000) as [Hle|Hgt].
  - split; [split; [reflexivity | exact Hle] | lia].
  - split; [lia | intros _; eexists; reflexivity].
Qed.

Lemma preorder_length (t : tree) : List.length (preorder t) = size t.
Proof.
  induction t as [v|v cs IH] using tree_nested_ind; [reflexivity|].
  rewrite preorder_node, size_node. cbn [get_children List.length]. f_equal.
  induction IH as [|c cs Hc _ IHcs]; [reflexivity|].
  cbn [flat_map]. rewrite length_app, Hc, IHcs. reflexivity.
Qed.

(** X6.  [tree_traversal_iterative] has no ceiling: for a root that is not
    the empty dict, of any height, it returns the pre-order sequence, one
    element for each node of the tree; for the empty dict it returns the
    empty list. *)
Theorem tree_traversal_iterative_preorder (root : tree) :
  tree_traversal_iterative root =
  (if truthy root then preorder root else []) /\
  (truthy root = true ->
   List.length (tree_traversal_iterative root) = size root).
Proof.
  destruct (truthy root) eqn:Ht.
  - rewrite tree_traversal_iterative_spec by assumption.
    split; [reflexivity | intros _; apply preorder_length].
  - split; [|discriminate]. unfold tree_traversal_iterative. now rewrite Ht.
Qed.

End TraversalMore.

Lemma tree_traversal_naive_ceiling_witness :
  exists msg : string,
    RecursiveAlgorithms.tree_traversal_naive (deep_chain 1001) =
    Raise (RecursionError msg).
Proof.
  apply (proj2 (tree_traversal_naive_ceiling (deep_chain 1001))).
  rewrite deep_chain_height. lia.
Defined.

Lemma tree_traversal_iterative_preorder_witness :
  List.length (RecursiveAlgorithms.tree_traversal_iterative sample_tree) =
  size sample_tree.
Proof.
  apply (proj2 (tree_traversal_iterative_preorder sample_tree)). reflexivity.
Defined.

(** ** Pathfinding on any grid *)

Section PathfindingMore.

Import RecursiveAlgorithms.

(** [pathfinding_naive_at] with its loop written with [for_dirs]. *)
Lemma pathfinding_naive_at_eq (fuel : nat) (g : grid) (x y tx ty : Z)
  (path : list cell) (depth : Z) :
  pathfinding_naive_at fuel g x y tx ty path depth =
  if depth >? 1000 then
    Some (Raise (RecursionError "Pathfinding recursion depth exceeded"))
  else if In_path (x, y) path then Some (Return [])
  else if (x <? 0) || (x >=? len g) || (y <? 0) then Some (Return [])
  else
    match index g 0 with
    | None => Some (Raise (IndexError "list index out of range"))
    | Some row0 =>
        if y >=? len row0 then Some (Return [])
        else
          match index g x with
          | None => Some (Raise (IndexError "list index out of range"))
          | Some row =>
              match index row y with
              | None => Some (Raise (IndexError "list index out of range"))
              | Some c =>
                  if c =? 1 then Some (Return [])
                  else if (x =? tx) && (y =? ty) then
                    Some (Return (path ++ [(x, y)])%list)
                  else
                    match fuel with
                    | O => None
                    | S fuel' =>
                        for_dirs
                          (fun d =>
                             pathfinding_naive_at fuel' g
                               (x + fst d) (y + snd d) tx ty
                               (path ++ [(x, y)])%list (depth + 1))
                          dirs4 []
                    end
              end
          end
    end.
Proof.
  destruct fuel as [|fuel]; cbn [pathfinding_naive_at];
    destruct (depth >? 1000); try reflexivity;
    destruct (In_path (x, y) path); try reflexivity;
    destruct ((x <? 0) || (x >=? len g) || (y <? 0)); try reflexivity;
    destruct (index g 0) as [row0|]; try reflexivity;
    destruct (y >=? len row0); try reflexivity;
    destruct (index g x) as [row|]; try reflexivity;
    destruct (index row y) as [c|]; try reflexivity;
    destruct (c =? 1); try reflexivity;
    destruct ((x =? tx) && (y =? ty)); reflexivity.
Qed.

Lemma min_by_len_In {A : Type} (rest : list (list A)) :
  forall best : list A, In (min_by_len best rest) (best :: rest).
Proof.
  induction rest as [|p rest IH]; intros best; cbn [min_by_len].
  - now left.
  - destruct (len p <? len best).
    + right. apply IH.
    + destruct (IH best) as [<- | Hin]; [now left | now right; right].
Qed.

Lemma min_by_len_le {A : Type} (rest : list (list A)) :
  forall (best r : list A),
    In r (best :: rest) -> len (min_by_len best rest) <= len r.
Proof.
  induction rest as [|p rest IH]; intros best r Hin; cbn [min_by_len].
  - destruct Hin as [<- | []]. lia.
  - destruct (Z.ltb_spec (len p) (len best)).
    + destruct Hin as [<- | [<- | Hin]].
      * pose proof (IH p p (or_introl eq_refl)). lia.
      * apply IH. now left.
      * apply IH. now right.
    + destruct Hin as [<- | [<- | Hin]].
      * apply IH. now left.
      * pose proof (IH best best (or_introl eq_refl)). lia.
      * apply IH. now right.
Qed.

Lemma shortest_In (paths : list (list cell)) :
  paths <> [] -> In (shortest paths) paths.
Proof.
  destruct paths as [|p ps]; [congruence | intros _; apply min_by_len_In].
Qed.

Lemma shortest_le (paths : list (list cell)) (r : list cell) :
  In r paths -> len (shortest paths) <= len r.
Proof.
  destruct paths as [|p ps]; [intros [] | apply min_by_len_le].
Qed.

(** When the calls for all the moves return, the loop returns the first of
    the shortest paths that are not empty. *)
Lemma for_dirs_returns (rec : cell -> option (exec (list cell)))
  (dirs : list cell) :
  forall (results paths : list (list cell)),
    map rec dirs = map (fun q => Some (Return q)) results ->
    for_dirs rec dirs paths =
    Some (Return (shortest (paths ++ filter nonempty results))).
Proof.
  induction dirs as [|d dirs IH]; intros [|q results] paths Hmap;
    try discriminate Hmap.
  - cbn [for_dirs filter]. rewrite app_nil_r. now destruct paths.
  - cbn [map] in Hmap. injection Hmap as Hd Hmap.
    cbn [for_dirs]. rewrite Hd. destruct q as [|c q].
    + cbn [filter nonempty]. now apply IH.
    + cbn [filter nonempty]. rewrite (IH results _ Hmap).
      now rewrite <- app_assoc.
Qed.

(** A result of the loop comes from calls that all returned. *)
Lemma for_dirs_inv (rec : cell -> option (exec (list cell)))
  (dirs : list cell) :
  forall (paths : list (list cell)) (p : list cell),
    for_dirs rec dirs paths = Some (Return p) ->
    exists results : list (list cell),
      map rec dirs = map (fun q => Some (Return q)) results /\
      p = shortest (paths ++ filter nonempty results).
Proof.
  induction dirs as [|d dirs IH]; intros paths p H; cbn [for_dirs] in H.
  - exists []. split; [reflexivity|]. cbn [filter]. rewrite app_nil_r.
    destruct paths; now injection H as <-.
  - destruct (rec d) as [[q|e]|] eqn:Hd; try discriminate H.
    destruct q as [|c q].
    + destruct (IH _ _ H) as (results & Hmap & ->).
      exists ([] :: results). cbn [map filter nonempty].
      now rewrite Hd, Hmap.
    + destruct (IH _ _ H) as (results & Hmap & ->).
      exists ((c :: q) :: results). cbn [map filter nonempty].
      rewrite Hd, Hmap, <- app_assoc. split; reflexivity.
Qed.

Lemma results_of_dirs (rec : cell -> option (exec (list cell)))
  (dirs : list cell) (results : list (list cell)) (q : list cell) :
  map rec dirs = map (fun q => Some (Return q)) results ->
  In q results -> exists d, In d dirs /\ rec d = Some (Return q).
Proof.
  revert results. induction dirs as [|d dirs IH]; intros [|r results] Hmap Hin;
    try discriminate Hmap; [destruct Hin|].
  cbn [map] in Hmap. injection Hmap as Hd Hmap.
  destruct Hin as [<- | Hin].
  - exists d. split; [now left | exact Hd].
  - destruct (IH results Hmap Hin) as (d' & Hd' & Hr).
    exists d'. split; [now right | exact Hr].
Qed.

Lemma dirs_of_results (rec : cell -> option (exec (list cell)))
  (dirs : list cell) (results : list (list cell)) (d : cell) (q : list cell) :
  map rec dirs = map (fun q => Some (Return q)) results ->
  In d dirs -> rec d = Some (Return q) -> In q results.
Proof.
  revert results. induction dirs as [|d' dirs IH]; intros [|r results] Hmap Hin Hr;
    try discriminate Hmap; [destruct Hin|].
  cbn [map] in Hmap. injection Hmap as Hd Hmap.
  destruct Hin as [-> | Hin].
  - left. congruence.
  - right. now apply IH.
Qed.

Lemma In_path_iff (c : cell) (path : list cell) :
  In_path c path = true <-> In c path.
Proof.
  unfold In_path. rewrite existsb_exists. split.
  - intros (c' & Hin & Heq). unfold cell_eqb in Heq.
    apply andb_prop in Heq as [H1 H2].
    apply Z.eqb_eq in H1, H2. destruct c, c'. cbn in *. now subst.
  - intros Hin. exists c. split; [exact Hin|].
    unfold cell_eqb. now rewrite !Z.eqb_refl.
Qed.

Lemma In_path_false (c : cell) (path : list cell) :
  In_path c path = false <-> ~ In c path.
Proof.
  rewrite <- In_path_iff. destruct (In_path c path); split; congruence.
Qed.

Lemma adjacent_dirs4 (x y : Z) (d : cell) :
  In d dirs4 -> adjacent (x, y) (x + fst d, y + snd d) = true.
Proof.
  unfold dirs4, adjacent. cbn [In fst snd].
  intros [<- | [<- | [<- | [<- | []]]]]; cbn [fst snd]; apply Z.eqb_eq; lia.
Qed.

Lemma dirs4_adjacent (x y : Z) (c : cell) :
  adjacent (x, y) c = true ->
  exists d, In d dirs4 /\ c = (x + fst d, y + snd d).
Proof.
  unfold adjacent. destruct c as [x' y']. cbn [fst snd]. intros H.
  apply Z.eqb_eq in H.
  assert ((x' = x + 1 /\ y' = y) \/ (x' = x - 1 /\ y' = y) \/
          (x' = x /\ y' = y + 1) \/ (x' = x /\ y' = y - 1))
    as [[-> ->] | [[-> ->] | [[-> ->] | [-> ->]]]] by lia.
  - exists (1, 0). split; [cbn; auto | cbn [fst snd]; f_equal; lia].
  - exists (-1, 0). split; [cbn; auto | cbn [fst snd]; f_equal; lia].
  - exists (0, 1). split; [cbn; auto | cbn [fst snd]; f_equal; lia].
  - exists (0, -1). split; [cbn; auto 6 | cbn [fst snd]; f_equal; lia].
Qed.

(** What the checks at the head of a call establish when the call goes on
    to extend the path. *)
Lemma checks_free (g : grid) (x y : Z) (row0 row : list Z) (c : Z) :
  (x <? 0) || (x >=? len g) || (y <? 0) = false ->
  index g 0 = Some row0 -> (y >=? len row0) = false ->
  index g x = Some row -> index row y = Some c -> (c =? 1) = false ->
  cell_free g (x, y) = true.
Proof.
  intros Hb H0 Hy Hx Hc H1.
  apply orb_false_elim in Hb as [Hb Hy0]. apply orb_false_elim in Hb as [Hx0 Hxl].
  unfold cell_free, in_bounds. cbn [fst snd]. rewrite Hx, Hc, H1.
  assert (hd [] g = row0) as ->
      by (unfold index in H0; destruct g; cbn in *; congruence).
  cbn [negb]. rewrite andb_true_r.
  repeat (apply andb_true_intro; split); lia.
Qed.

Lemma last_default {A : Type} (l : list A) :
  forall a d d' : A, last (a :: l) d = last (a :: l) d'.
Proof.
  induction l as [|b l IH]; intros a d d'; [reflexivity|].
  change (last (b :: l) d = last (b :: l) d'). apply IH.
Qed.

(** A path returned by a call extends the path it was given by a way
    from its cell to the target. *)
Lemma pathfinding_naive_at_sound (fuel : nat) :
  forall (g : grid) (x y tx ty : Z) (path : list cell) (depth : Z)
         (p : list cell),
    pathfinding_naive_at fuel g x y tx ty path depth = Some (Return p) ->
    p <> [] ->
    exists s : list cell,
      p = (path ++ (x, y) :: s)%list /\
      last ((x, y) :: s) (x, y) = (tx, ty) /\
      is_walk ((x, y) :: s) = true /\
      forallb (cell_free g) ((x, y) :: s) = true /\
      NoDup ((x, y) :: s) /\
      forall c, In c ((x, y) :: s) -> ~ In c path.
Proof.
  induction fuel as [|fuel IH]; intros g x y tx ty path depth p H Hp;
    rewrite pathfinding_naive_at_eq in H;
    (destruct (depth >? 1000); [discriminate H|]);
    (destruct (In_path (x, y) path) eqn:Hin; [now injection H as <-|]);
    (destruct ((x <? 0) || (x >=? len g) || (y <? 0)) eqn:Hb;
     [now injection H as <-|]);
    (destruct (index g 0) as [row0|] eqn:H0; [|discriminate H]);
    (destruct (y >=? len row0) eqn:Hy; [now injection H as <-|]);
    (destruct (index g x) as [row|] eqn:Hx; [|discriminate H]);
    (destruct (index row y) as [c|] eqn:Hc; [|discriminate H]);
    (destruct (c =? 1) eqn:H1; [now injection H as <-|]);
    pose proof (checks_free g x y row0 row c Hb H0 Hy Hx Hc H1) as Hfree;
    apply In_path_false in Hin;
    (destruct ((x =? tx) && (y =? ty)) eqn:Ht;
     [injection H as <-; exists [];
      apply andb_prop in Ht as [Ht1 Ht2]; apply Z.eqb_eq in Ht1, Ht2;
      subst tx ty; cbn [last is_walk forallb]; rewrite Hfree;
      repeat split; try reflexivity;
      [ constructor; [intros [] | constructor]
      | intros c' [<- | []]; exact Hin ]|]).
  - discriminate H.
  - apply for_dirs_inv in H as (results & Hmap & ->).
    cbn [app] in Hp |- *.
    assert (Hne : filter nonempty results <> [])
      by (intros Heq; rewrite Heq in Hp; now apply Hp).
    pose proof (shortest_In _ Hne) as Hsh.
    apply filter_In in Hsh as [Hsh Hnonempty].
    destruct (results_of_dirs _ _ _ _ Hmap Hsh) as (d & Hd & Hrec).
    destruct (IH _ _ _ _ _ _ _ _ Hrec Hp)
      as (s & Heq & Hlast & Hwalk & Hfrees & Hnd & Hdisj).
    exists ((x + fst d, y + snd d) :: s).
    rewrite Heq, <- app_assoc. cbn [app].
    split; [reflexivity|].
    split; [rewrite <- Hlast; apply (last_default s)|].
    split; [cbn [is_walk] in *; now rewrite adjacent_dirs4, Hwalk|].
    split; [cbn [forallb] in *; now rewrite Hfree, Hfrees|].
    split.
    + constructor; [|exact Hnd].
      intros Hc'. apply (Hdisj _ Hc'). apply in_or_app. right. now left.
    + intros c' [<- | Hc']; [exact Hin|].
      intros Hpath. apply (Hdisj _ Hc'). apply in_or_app. now left.
Qed.

(** X7.  A path [pathfinding_naive] returns, when it is not empty, is a
    way from the start to the target: it begins at the start cell, ends at
    the target, goes one move at a time, stays on cells that are inside the
    grid and are no obstacles, and visits no cell twice. *)
Theorem pathfinding_naive_sound (g : grid) (x y tx ty : Z) (p : list cell) :
  pathfinding_naive g x y tx ty = Return p -> p <> [] ->
  simple_free_walk g (x, y) (tx, ty) p.
Proof.
  intros H Hp.
  pose proof (pathfinding_naive_defined g x y tx ty) as Hdef.
  rewrite H in Hdef.
  destruct (pathfinding_naive_at_sound _ _ _ _ _ _ _ _ _ Hdef Hp)
    as (s & -> & Hlast & Hwalk & Hfree & Hnd & _).
  cbn [app]. repeat split; assumption.
Qed.

Lemma range_In (lo hi x : Z) : In x (range lo hi) <-> lo <= x < hi.
Proof.
  unfold range. rewrite in_map_iff. split.
  - intros (i & <- & Hi). apply in_seq in Hi. lia.
  - intros Hx. exists (Z.to_nat (x - lo)). split; [lia|].
    apply in_seq. lia.
Qed.

Lemma in_bounds_all_cells (g : grid) (c : cell) :
  in_bounds g c = true -> In c (all_cells g).
Proof.
  unfold in_bounds, all_cells. destruct c as [x y]. cbn [fst snd].
  intros H. apply andb_prop in H as [H Hy2]. apply andb_prop in H as [H Hy1].
  apply andb_prop in H as [Hx1 Hx2].
  apply in_prod; apply range_In; lia.
Qed.

(** A path of distinct cells of the grid has no more cells than the
    grid. *)
Lemma path_bound (g : grid) (path : list cell) :
  NoDup path -> (forall c, In c path -> in_bounds g c = true) ->
  len path <= len g * len (hd [] g).
Proof.
  intros Hnd Hin.
  assert (Hincl : incl path (all_cells g))
    by (intros c Hc; now apply in_bounds_all_cells, Hin).
  pose proof (NoDup_incl_length Hnd Hincl) as Hlen.
  unfold all_cells, cell in Hlen.
  rewrite length_prod, !range_length in Hlen.
  unfold len in *. rewrite !Z.sub_0_r, !Nat2Z.id in Hlen.
  rewrite <- Nat2Z.inj_mul. now apply inj_le.
Qed.

Lemma NoDup_snoc {A : Type} (l : list A) (a : A) :
  NoDup l -> ~ In a l -> NoDup (l ++ [a]).
Proof.
  intros Hnd Hin. apply NoDup_rev in Hnd.
  rewrite <- (rev_involutive (l ++ [a])). apply NoDup_rev.
  rewrite rev_app_distr. cbn [rev app]. constructor; [|exact Hnd].
  now rewrite <- in_rev.
Qed.

Lemma cell_free_in_bounds (g : grid) (c : cell) :
  cell_free g c = true -> in_bounds g c = true.
Proof. unfold cell_free. intros H. now apply andb_prop in H as [H _]. Qed.

Lemma all_return (rec : cell -> option (exec (list cell))) (dirs : list cell) :
  (forall d, In d dirs -> exists q, rec d = Some (Return q)) ->
  exists results, map rec dirs = map (fun q => Some (Return q)) results.
Proof.
  induction dirs as [|d dirs IH]; intros H.
  - now exists [].
  - destruct (H d (or_introl eq_refl)) as [q Hq].
    destruct IH as [results Hr]; [intros d' Hd'; apply H; now right|].
    exists (q :: results). cbn [map]. now rewrite Hq, Hr.
Qed.

(** A failure of the loop is the failure of one of its calls. *)
Lemma for_dirs_raise (rec : cell -> option (exec (list cell)))
  (dirs : list cell) :
  forall (paths : list (list cell)) (e : exn),
    for_dirs rec dirs paths = Some (Raise e) ->
    exists d, In d dirs /\ rec d = Some (Raise e).
Proof.
  induction dirs as [|d dirs IH]; intros paths e H; cbn [for_dirs] in H.
  - destruct paths; discriminate H.
  - destruct (rec d) as [[q|e']|] eqn:Hd; try discriminate H.
    + assert (Hrest : exists d', In d' dirs /\ rec d' = Some (Raise e))
        by (destruct q; eapply IH; exact H).
      destruct Hrest as (d' & Hin & Hr). exists d'. split; [now right | exact Hr].
    + injection H as ->. exists d. split; [now left | exact Hd].
Qed.

Section AnySize.

Variable g : grid.
Hypothesis rect : rectangular g = true.

(** On a cell inside a rectangular grid both look-ups succeed. *)
Lemma lookups_succeed (x y : Z) :
  in_bounds g (x, y) = true ->
  index g 0 = Some (hd [] g) /\
  exists row c, index g x = Some row /\ index row y = Some c.
Proof.
  unfold in_bounds. cbn [fst snd]. intros H.
  apply andb_prop in H as [H Hy2]. apply andb_prop in H as [H Hy1].
  apply andb_prop in H as [Hx1 Hx2].
  apply Z.leb_le in Hx1, Hy1. apply Z.ltb_lt in Hx2, Hy2.
  split.
  - unfold index. destruct g; [unfold len in Hx2; cbn in Hx2; lia | reflexivity].
  - unfold index.
    destruct (nth_error g (Z.to_nat x)) as [row|] eqn:Hrow;
      [|apply nth_error_None in Hrow; unfold len in Hx2; lia].
    assert (Hlen : len row = len (hd [] g)).
    { unfold rectangular in rect. rewrite forallb_forall in rect.
      apply Z.eqb_eq, rect. eapply nth_error_In, Hrow. }
    destruct (nth_error row (Z.to_nat y)) as [c|] eqn:Hcell;
      [now exists row, c|].
    apply nth_error_None in Hcell. unfold len in *. lia.
Qed.

(** On a rectangular grid no look-up fails: a call that does not return
    ends in a [RecursionError]. *)
Lemma pathfinding_naive_at_lookups (fuel : nat) :
  forall (x y tx ty : Z) (path : list cell) (depth : Z)
         (r : exec (list cell)),
    pathfinding_naive_at fuel g x y tx ty path depth = Some r ->
    match r with
    | Return _ | Raise (RecursionError _) => True
    | Raise _ => False
    end.
Proof.
  induction fuel as [|fuel IH]; intros x y tx ty path depth r;
    rewrite pathfinding_naive_at_eq;
    (destruct (depth >? 1000); [intros [= <-]; exact I|]);
    (destruct (In_path (x, y) path); [intros [= <-]; exact I|]);
    (destruct ((x <? 0) || (x >=? len g) || (y <? 0)) eqn:Hb;
     [intros [= <-]; exact I|]);
    (destruct (index g 0) as [row0|] eqn:H0;
     [|exfalso; apply orb_false_elim in Hb as [Hb _];
       apply orb_false_elim in Hb as [Hx0 Hxl];
       unfold index in H0; apply nth_error_None in H0;
       unfold len in Hxl; cbn in H0; lia]);
    (destruct (y >=? len row0) eqn:Hy; [intros [= <-]; exact I|]);
    assert (Hib : in_bounds g (x, y) = true)
      by (apply orb_false_elim in Hb as [Hb Hy0];
          apply orb_false_elim in Hb as [Hx0 Hxl];
          unfold in_bounds; cbn [fst snd];
          replace (hd [] g) with row0
            by (unfold index in H0; destruct g; cbn in *; congruence);
          repeat (apply andb_true_intro; split); lia);
    destruct (lookups_succeed x y Hib) as (_ & row & c & -> & ->);
    (destruct (c =? 1); [intros [= <-]; exact I|]);
    (destruct ((x =? tx) && (y =? ty)); [intros [= <-]; exact I|]).
  - discriminate.
  - intros H. destruct r as [p|e]; [exact I|].
    apply for_dirs_raise in H as (d & _ & Hd).
    exact (IH _ _ _ _ _ _ _ Hd).
Qed.

End AnySize.

Section Rectangular.

Variable g : grid.
Hypothesis rect : rectangular g = true.
Hypothesis small : len g * len (hd [] g) <= 1000.

(** On a rectangular grid of at most 1000 cells no call raises. *)
Lemma pathfinding_naive_at_safe (fuel : nat) :
  forall (x y tx ty : Z) (path : list cell) (depth : Z),
    NoDup path -> (forall c, In c path -> in_bounds g c = true) ->
    depth = len path -> 1001 <= depth + Z.of_nat fuel ->
    exists p,
      pathfinding_naive_at fuel g x y tx ty path depth = Some (Return p).
Proof.
  induction fuel as [|fuel IH]; intros x y tx ty path depth Hnd Hin Hd Hf;
    pose proof (path_bound g path Hnd Hin) as Hlen;
    rewrite pathfinding_naive_at_eq;
    (destruct (Z.gtb_spec depth 1000); [lia|]);
    (destruct (In_path (x, y) path) eqn:Hmem; [eauto|]);
    (destruct ((x <? 0) || (x >=? len g) || (y <? 0)) eqn:Hb; [eauto|]);
    (destruct (index g 0) as [row0|] eqn:H0;
     [|exfalso; apply orb_false_elim in Hb as [Hb _];
       apply orb_false_elim in Hb as [Hx0 Hxl];
       unfold index in H0; apply nth_error_None in H0;
       unfold len in Hxl; cbn in H0; lia]);
    (destruct (y >=? len row0) eqn:Hy; [eauto|]);
    assert (Hib : in_bounds g (x, y) = true)
      by (apply orb_false_elim in Hb as [Hb Hy0];
          apply orb_false_elim in Hb as [Hx0 Hxl];
          unfold in_bounds; cbn [fst snd];
          replace (hd [] g) with row0
            by (unfold index in H0; destruct g; cbn in *; congruence);
          repeat (apply andb_true_intro; split); lia);
    destruct (lookups_succeed g rect x y Hib) as (_ & row & c & -> & ->);
    (destruct (c =? 1); [eauto|]);
    (destruct ((x =? tx) && (y =? ty)); [eauto|]).
  - lia.
  - apply In_path_false in Hmem.
    destruct (all_return
                (fun d =>
                   pathfinding_naive_at fuel g (x + fst d) (y + snd d) tx ty
                     (path ++ [(x, y)])%list (depth + 1)) dirs4)
      as [results Hr].
    + intros d _. apply IH.
      * now apply NoDup_snoc.
      * intros c' Hc'. apply in_app_or in Hc' as [Hc' | [<- | []]];
          [now apply Hin | exact Hib].
      * unfold len in *. rewrite length_app. cbn [List.length]. lia.
      * lia.
    + rewrite (for_dirs_returns _ _ _ _ Hr). eauto.
Qed.

End Rectangular.

(** X8.  On a grid whose rows all have the length of the first one,
    [pathfinding_naive] never fails at a look-up, from any start to any
    target: the only failure is a [RecursionError], and it takes a grid of
    more than 400 cells.  On a grid of at most 400 cells, the size of the
    largest one the dispatcher builds, the call returns: a path holds each
    cell at most once, so the calls nest no deeper than there are cells. *)
Theorem pathfinding_naive_returns (g : grid) (x y tx ty : Z) :
  rectangular g = true ->
  match pathfinding_naive g x y tx ty with
  | Return _ => True
  | Raise (RecursionError _) => 400 < len g * len (hd [] g)
  | Raise _ => False
  end.
Proof.
  intros Hrect.
  pose proof (pathfinding_naive_defined g x y tx ty) as Hdef.
  pose proof (pathfinding_naive_at_lookups g Hrect _ _ _ _ _ _ _ _ Hdef)
    as Hr.
  destruct (pathfinding_naive g x y tx ty) as [p|e]; [exact I|].
  destruct e; try contradiction.
  destruct (Z.le_gt_cases (len g * len (hd [] g)) 400) as [Hle|Hgt];
    [|lia].
  assert (Hsmall : len g * len (hd [] g) <= 1000) by lia.
  destruct (pathfinding_naive_at_safe g Hrect Hsmall 1002 x y tx ty [] 0)
    as [p Hp]; [constructor | intros c [] | reflexivity | lia |].
  rewrite Hp in Hdef. discriminate Hdef.
Qed.

Lemma last_In {A : Type} (l : list A) :
  forall a d : A, In (last (a :: l) d) (a :: l).
Proof.
  induction l as [|b l IH]; intros a d; [now left|].
  right. change (In (last (b :: l) d) (b :: l)). apply IH.
Qed.

(** What a free cell means for the checks at the head of a call. *)
Lemma free_checks (g : grid) (x y : Z) :
  cell_free g (x, y) = true ->
  (x <? 0) || (x >=? len g) || (y <? 0) = false /\
  index g 0 = Some (hd [] g) /\ (y >=? len (hd [] g)) = false /\
  exists row c,
    index g x = Some row /\ index row y = Some c /\ (c =? 1) = false.
Proof.
  unfold cell_free, in_bounds. cbn [fst snd]. intros H.
  apply andb_prop in H as [H Hv]. apply andb_prop in H as [H Hy2].
  apply andb_prop in H as [H Hy1]. apply andb_prop in H as [Hx1 Hx2].
  apply Z.leb_le in Hx1, Hy1. apply Z.ltb_lt in Hx2, Hy2.
  split; [|split; [|split]].
  - apply orb_false_intro; [apply orb_false_intro|]; lia.
  - unfold index. destruct g; [unfold len in Hx2; cbn in Hx2; lia | reflexivity].
  - lia.
  - destruct (index g x) as [row|]; [|discriminate Hv].
    destruct (index row y) as [c|] eqn:Hc; [|discriminate Hv].
    exists row, c. split; [reflexivity|]. split; [exact Hc|].
    now apply negb_true_iff.
Qed.

(** On a rectangular grid of at most 1000 cells, a call from a cell that
    has a way to the target returns a path no longer than that way. *)
Lemma pathfinding_naive_at_shortest (g : grid) :
  rectangular g = true -> len g * len (hd [] g) <= 1000 ->
  forall (w' : list cell) (x y tx ty : Z) (path : list cell) (depth : Z)
         (fuel : nat),
    NoDup path -> (forall c, In c path -> in_bounds g c = true) ->
    depth = len path -> 1001 <= depth + Z.of_nat fuel ->
    last ((x, y) :: w') (x, y) = (tx, ty) ->
    is_walk ((x, y) :: w') = true ->
    forallb (cell_free g) ((x, y) :: w') = true ->
    NoDup ((x, y) :: w') ->
    (forall c, In c ((x, y) :: w') -> ~ In c path) ->
    exists p,
      pathfinding_naive_at fuel g x y tx ty path depth = Some (Return p) /\
      p <> [] /\ len p <= len path + len ((x, y) :: w').
Proof.
  intros Hrect Hsmall.
  induction w' as [|c' w' IH];
    intros x y tx ty path depth fuel Hnd Hin Hd Hf Hlast Hwalk Hfree Hndw Hdisj;
    pose proof (path_bound g path Hnd Hin) as Hlen;
    rewrite pathfinding_naive_at_eq;
    (destruct (Z.gtb_spec depth 1000); [lia|]);
    assert (Hmem : In_path (x, y) path = false)
      by (apply In_path_false, Hdisj; now left);
    rewrite Hmem;
    assert (Hxy : cell_free g (x, y) = true)
      by (cbn [forallb] in Hfree; now apply andb_prop in Hfree as [? _]);
    destruct (free_checks g x y Hxy) as (-> & -> & -> & row & c & -> & -> & ->).
  - cbn [last] in Hlast. injection Hlast as <- <-.
    rewrite !Z.eqb_refl. cbn [andb]. eexists. split; [reflexivity|].
    split; [now destruct path|].
    unfold len. rewrite length_app. cbn [List.length]. lia.
  - assert (Hnt : (x =? tx) && (y =? ty) = false).
    { apply andb_false_iff.
      destruct (Z.eqb_spec x tx) as [->|]; [|now left].
      destruct (Z.eqb_spec y ty) as [->|]; [|now right].
      exfalso. apply NoDup_cons_iff in Hndw as [Hnot _]. apply Hnot.
      rewrite <- Hlast.
      change (In (last (c' :: w') (tx, ty)) (c' :: w')). apply last_In. }
    rewrite Hnt. destruct fuel as [|fuel]; [lia|].
    apply In_path_false in Hmem.
    assert (Hib : in_bounds g (x, y) = true) by now apply cell_free_in_bounds.
    assert (Hnd' : NoDup (path ++ [(x, y)])) by now apply NoDup_snoc.
    assert (Hin' : forall c0, In c0 (path ++ [(x, y)]) -> in_bounds g c0 = true).
    { intros c0 Hc0. apply in_app_or in Hc0 as [Hc0 | [<- | []]];
        [now apply Hin | exact Hib]. }
    assert (Hd' : depth + 1 = len (path ++ [(x, y)]))
      by (unfold len in *; rewrite length_app; cbn [List.length]; lia).
    destruct (all_return
                (fun d =>
                   pathfinding_naive_at fuel g (x + fst d) (y + snd d) tx ty
                     (path ++ [(x, y)])%list (depth + 1)) dirs4)
      as [results Hr].
    { intros d _.
      apply (pathfinding_naive_at_safe g Hrect Hsmall); [assumption.. | lia]. }
    rewrite (for_dirs_returns _ _ _ _ Hr). cbn [app].
    cbn [is_walk] in Hwalk. apply andb_prop in Hwalk as [Hadj Hwalk].
    destruct (dirs4_adjacent x y c' Hadj) as (d & Hd4 & ->).
    destruct (IH (x + fst d) (y + snd d) tx ty (path ++ [(x, y)])%list
                (depth + 1) fuel Hnd' Hin' Hd')
      as (p' & Hp' & Hne' & Hle'); try lia.
    + rewrite <- Hlast. apply (last_default w').
    + exact Hwalk.
    + cbn [forallb] in Hfree. now apply andb_prop in Hfree as [_ ?].
    + now apply NoDup_cons_iff in Hndw as [_ ?].
    + intros c0 Hc0 Hc0'. apply in_app_or in Hc0' as [Hc0' | [<- | []]].
      * apply (Hdisj c0); [now right | exact Hc0'].
      * apply NoDup_cons_iff in Hndw as [Hnot _]. now apply Hnot.
    + assert (Hfound : In p' (filter nonempty results)).
      { apply filter_In. split.
        - exact (dirs_of_results _ _ _ _ _ Hr Hd4 Hp').
        - destruct p'; [congruence | reflexivity]. }
      eexists. split; [reflexivity|]. split.
      * assert (Hne : filter nonempty results <> [])
          by (intros Heq; rewrite Heq in Hfound; destruct Hfound).
        pose proof (shortest_In _ Hne) as Hsh.
        apply filter_In in Hsh as [_ Hsh].
        destruct (shortest (filter nonempty results)); [discriminate Hsh|].
        discriminate.
      * pose proof (shortest_le _ _ Hfound) as Hsl.
        unfold len in *. rewrite length_app in Hle'.
        cbn [List.length] in *. lia.
Qed.

(** X9.  On a grid whose rows all have the length of the first one and
    that has at most 400 cells, the size of the largest one the dispatcher
    builds, whenever some way leads from the start to the target over free
    cells, [pathfinding_naive] returns such a way, and one with no more
    cells than any other. *)
Theorem pathfinding_naive_shortest (g : grid) (x y tx ty : Z)
  (w : list cell) :
  rectangular g = true -> len g * len (hd [] g) <= 400 ->
  simple_free_walk g (x, y) (tx, ty) w ->
  exists p : list cell,
    pathfinding_naive g x y tx ty = Return p /\
    simple_free_walk g (x, y) (tx, ty) p /\ len p <= len w.
Proof.
  intros Hrect Hcells (Hhd & Hlast & Hwalk & Hfree & Hnd).
  assert (Hsmall : len g * len (hd [] g) <= 1000) by lia.
  destruct w as [|c w']; [discriminate Hhd|]. injection Hhd as ->.
  destruct (pathfinding_naive_at_shortest g Hrect Hsmall w' x y tx ty [] 0 1002)
    as (p & Hp & Hne & Hle);
    try assumption;
    [constructor | intros c [] | reflexivity | lia | intros c _ [] |].
  exists p. pose proof (pathfinding_naive_defined g x y tx ty) as Hdef.
  split; [congruence|]. split; [|exact Hle].
  destruct (pathfinding_naive_at_sound _ _ _ _ _ _ _ _ _ Hp Hne)
    as (s & -> & Hl & Hw & Hf & Hn & _).
  cbn [app]. repeat split; assumption.
Qed.

End PathfindingMore.

Lemma pathfinding_naive_shortest_witness :
  exists p : list cell,
    RecursiveAlgorithms.pathfinding_naive walled_grid 0 0 0 2 = Return p /\
    simple_free_walk walled_grid (0, 0) (0, 2) p /\
    len p <= len [(0, 0); (1, 0); (1, 1); (1, 2); (0, 2)].
Proof.
  apply (pathfinding_naive_shortest walled_grid 0 0 0 2);
    [reflexivity | vm_compute; discriminate |].
  repeat split; try reflexivity.
  repeat constructor; cbn [In]; intuition discriminate.
Defined.

Lemma pathfinding_naive_returns_witness :
  match RecursiveAlgorithms.pathfinding_naive walled_grid 2 0 0 2 with
  | Return _ => True
  | Raise (RecursionError _) => 400 < len walled_grid * len (hd [] walled_grid)
  | Raise _ => False
  end.
Proof.
  apply (pathfinding_naive_returns walled_grid 2 0 0 2). reflexivity.
Defined.

Lemma pathfinding_naive_sound_witness :
  simple_free_walk walled_grid (0, 0) (0, 2)
    [(0, 0); (1, 0); (1, 1); (1, 2); (0, 2)].
Proof.
  apply (pathfinding_naive_sound walled_grid 0 0 0 2);
    [vm_compute; reflexivity | discriminate].
Defined.

(** ** The grid generator *)

Section GridGenerator.

Import OptimizedRecursion.

Lemma length_set_nth {A : Type} (l : list A) :
  forall (j : nat) (v : A), List.length (set_nth l j v) = List.length l.
Proof.
  induction l as [|a l IH]; intros [|j] v; cbn [set_nth List.length];
    try reflexivity.
  now rewrite IH.
Qed.

Lemma nth_error_set_nth {A : Type} (l : list A) :
  forall (j k : nat) (v : A),
    nth_error (set_nth l j v) k =
    if (k =? j)%nat then option_map (fun _ => v) (nth_error l k)
    else nth_error l k.
Proof.
  induction l as [|a l IH]; intros j k v.
  - replace (set_nth [] j v) with (@nil A) by now destruct j.
    destruct (k =? j)%nat, k; reflexivity.
  - destruct j as [|j], k as [|k]; try reflexivity. exact (IH j k v).
Qed.

Lemma Forall_set_nth {A : Type} (P : A -> Prop) (l : list A) :
  forall (j : nat) (v : A), Forall P l -> P v -> Forall P (set_nth l j v).
Proof.
  induction l as [|a l IH]; intros [|j] v Hl Hv; cbn [set_nth];
    try constructor; inversion Hl; subst; auto.
Qed.

(** Marking one obstacle changes that cell alone. *)
Lemma cell_at_set_obstacle (g : grid) (i j i' j' : Z) :
  0 <= i -> 0 <= j -> 0 <= i' -> 0 <= j' ->
  cell_at (set_obstacle g i j) i' j' =
  if (i' =? i) && (j' =? j) then option_map (fun _ => 1) (cell_at g i' j')
  else cell_at g i' j'.
Proof.
  intros Hi Hj Hi' Hj'. unfold set_obstacle, cell_at, index.
  destruct (nth_error g (Z.to_nat i)) as [row|] eqn:Hrow.
  - rewrite nth_error_set_nth.
    destruct (Z.eqb_spec i' i) as [->|Hne].
    + rewrite Nat.eqb_refl, Hrow. cbn [option_map andb].
      rewrite nth_error_set_nth.
      destruct (Z.eqb_spec j' j) as [->|Hnej].
      * now rewrite Nat.eqb_refl.
      * destruct (Nat.eqb_spec (Z.to_nat j') (Z.to_nat j)); [lia | reflexivity].
    + destruct (Nat.eqb_spec (Z.to_nat i') (Z.to_nat i)); [lia | reflexivity].
  - destruct (Z.eqb_spec i' i) as [->|Hne]; [|reflexivity].
    rewrite Hrow. now destruct (j' =? j).
Qed.

Lemma cell_at_fold_set_obstacle (rows : list Z) (j i' j' : Z) :
  forall g : grid,
    (forall i, In i rows -> 0 <= i) -> 0 <= j -> 0 <= i' -> 0 <= j' ->
    cell_at (fold_left (fun g i => set_obstacle g i j) rows g) i' j' =
    if existsb (Z.eqb i') rows && (j' =? j) then
      option_map (fun _ => 1) (cell_at g i' j')
    else cell_at g i' j'.
Proof.
  induction rows as [|i rows IH]; intros g Hrows Hj Hi' Hj';
    [reflexivity|].
  cbn [fold_left existsb].
  rewrite IH by (auto; intros; apply Hrows; now right).
  rewrite cell_at_set_obstacle by (auto; apply Hrows; now left).
  destruct (i' =? i), (existsb (Z.eqb i') rows), (j' =? j),
    (cell_at g i' j'); reflexivity.
Qed.

Lemma shape_set_obstacle (n : nat) (g : grid) (i j : Z) :
  Forall (fun row => List.length row = n) g ->
  List.length (set_obstacle g i j) = List.length g /\
  Forall (fun row => List.length row = n) (set_obstacle g i j).
Proof.
  intros Hg. unfold set_obstacle.
  destruct (index g i) as [row|] eqn:Hrow; [|now split].
  split; [apply length_set_nth|].
  apply Forall_set_nth; [exact Hg|].
  rewrite length_set_nth.
  rewrite Forall_forall in Hg. apply Hg.
  unfold index in Hrow. eapply nth_error_In, Hrow.
Qed.

Lemma shape_fold_set_obstacle (n : nat) (rows : list Z) (j : Z) :
  forall g : grid,
    Forall (fun row => List.length row = n) g ->
    List.length (fold_left (fun g i => set_obstacle g i j) rows g)
    = List.length g /\
    Forall (fun row => List.length row = n)
           (fold_left (fun g i => set_obstacle g i j) rows g).
Proof.
  induction rows as [|i rows IH]; intros g Hg; [now split|].
  cbn [fold_left].
  destruct (shape_set_obstacle n g i j Hg) as [Hlen Hall].
  destruct (IH _ Hall) as [Hlen' Hall']. split; [congruence | exact Hall'].
Qed.

(** The grid is a square of side [size]. *)
Lemma generate_grid_shape (size : Z) :
  len (generate_grid size) = Z.max 0 size /\
  Forall (fun row => List.length row = Z.to_nat size) (generate_grid size).
Proof.
  unfold generate_grid.
  assert (H0 : Forall (fun row => List.length row = Z.to_nat size)
                 (map (fun _ : Z => map (fun _ : Z => 0) (range 0 size))
                      (range 0 size))).
  { apply Forall_forall. intros row Hrow. apply in_map_iff in Hrow as (? & <- & _).
    rewrite length_map, range_length. lia. }
  destruct (shape_fold_set_obstacle _ (range_step 1 (size - 1) 2) (size / 2)
              _ H0) as [Hlen Hall].
  split; [|exact Hall].
  unfold len. rewrite Hlen, length_map, range_length. lia.
Qed.

Lemma range_step_odd (hi x : Z) :
  existsb (Z.eqb x) (range_step 1 hi 2) = Z.odd x && (1 <=? x) && (x <? hi).
Proof.
  destruct (existsb (Z.eqb x) (range_step 1 hi 2)) eqn:Hex.
  - apply existsb_exists in Hex as (x' & Hin & Heq).
    apply Z.eqb_eq in Heq. subst x'. unfold range_step in Hin.
    apply in_map_iff in Hin as (k & <- & Hk). apply in_seq in Hk.
    assert (Hk' : Z.of_nat k < (hi - 1 + 2 - 1) / 2) by lia.
    symmetry. repeat (apply andb_true_intro; split).
    + rewrite Z.odd_add_mul_2. reflexivity.
    + lia.
    + apply Z.ltb_lt. Z.div_mod_to_equations. lia.
  - symmetry. apply not_true_is_false. intros H.
    apply andb_prop in H as [H Hlt]. apply andb_prop in H as [Hodd Hge].
    apply Z.leb_le in Hge. apply Z.ltb_lt in Hlt.
    apply Z.odd_spec in Hodd as [k ->].
    assert (Hin : In (2 * k + 1) (range_step 1 hi 2)).
    { unfold range_step. apply in_map_iff. exists (Z.to_nat k).
      split; [lia|]. apply in_seq.
      assert (k < (hi - 1 + 2 - 1) / 2) by (Z.div_mod_to_equations; lia).
      lia. }
    assert (Hex' : existsb (Z.eqb (2 * k + 1)) (range_step 1 hi 2) = true)
      by (apply existsb_exists; eexists; split; [exact Hin | apply Z.eqb_refl]).
    congruence.
Qed.

Lemma generate_grid_cells (size i j : Z) :
  0 <= i < size -> 0 <= j < size ->
  len (generate_grid size) = size /\
  rectangular (generate_grid size) = true /\
  len (hd [] (generate_grid size)) = size /\
  cell_at (generate_grid size) i j =
  Some (if Z.odd i && (i <? size - 1) && (j =? size / 2) then 1 else 0).
Proof.
  intros Hi Hj. destruct (generate_grid_shape size) as [Hlen Hall].
  assert (Hrows : forall row, In row (generate_grid size) ->
                              len row = size).
  { rewrite Forall_forall in Hall. intros row Hrow. unfold len.
    rewrite (Hall row Hrow). lia. }
  assert (Hhd : len (hd [] (generate_grid size)) = size).
  { destruct (generate_grid size) as [|row0 g'] eqn:Hg.
    - unfold len in Hlen. cbn in Hlen. lia.
    - apply Hrows. now left. }
  split; [lia|]. split; [|split; [exact Hhd|]].
  - unfold rectangular. apply forallb_forall. intros row Hrow.
    apply Z.eqb_eq. rewrite Hhd. now apply Hrows.
  - unfold generate_grid.
    rewrite cell_at_fold_set_obstacle; try lia.
    + rewrite range_step_odd.
      assert (Hcell : cell_at
                        (map (fun _ : Z => map (fun _ : Z => 0) (range 0 size))
                             (range 0 size)) i j = Some 0).
      { unfold cell_at, index. rewrite !map_const, !range_length.
        rewrite nth_error_repeat by lia. now rewrite nth_error_repeat by lia. }
      rewrite Hcell. cbn [option_map].
      replace (1 <=? i) with (negb (i =? 0))
        by (destruct (Z.eqb_spec i 0), (Z.leb_spec 1 i); try lia; reflexivity).
      destruct (Z.eqb_spec i 0) as [->|]; [reflexivity|].
      cbn [negb]. rewrite andb_true_r.
      now destruct (Z.odd i && (i <? size - 1) && (j =? size / 2)).
    + intros r Hr. unfold range_step in Hr.
      apply in_map_iff in Hr as (k & <- & _). lia.
    + Z.div_mod_to_equations. lia.
Qed.

(** X10.  [generate_grid size] is a square of side [size] whose cell in
    row [i] and column [j] is an obstacle exactly when [i] is odd, is not
    the last row, and [j] is the middle column [size // 2]; every other
    cell is free. *)
Theorem generate_grid_layout (size i j : Z) :
  0 <= i < size -> 0 <= j < size ->
  len (generate_grid size) = size /\
  rectangular (generate_grid size) = true /\
  len (hd [] (generate_grid size)) = size /\
  cell_at (generate_grid size) i j =
  Some (if Z.odd i && (i <? size - 1) && (j =? size / 2) then 1 else 0).
Proof. exact (generate_grid_cells size i j). Qed.

End GridGenerator.

Lemma generate_grid_layout_witness :
  len (OptimizedRecursion.generate_grid 7) = 7 /\
  rectangular (OptimizedRecursion.generate_grid 7) = true /\
  len (hd [] (OptimizedRecursion.generate_grid 7)) = 7 /\
  cell_at (OptimizedRecursion.generate_grid 7) 3 3 =
  Some (if Z.odd 3 && (3 <? 7 - 1) && (3 =? 7 / 2) then 1 else 0).
Proof. apply (generate_grid_layout 7 3 3); lia. Defined.

(** ** What a dispatch returns *)

Section DispatchResults.

Import OptimizedRecursion.

Variable h : host.

(** X11.  A Fibonacci dispatch with [n > 0] succeeds with F(n) when it is
    optimized, for every [n], and when it is naive with [n <= 35] on a host
    that leaves the frame check silent: the two modes give the same result.
    The dispatch appends one metric with [success = true], which carries
    the execution time and the memory peak of the answer, and leaves the
    error counter as it was. *)
Theorem dispatch_fibonacci (st : state) (n : Z) (opt : bool) :
  0 < n -> opt = true \/ (n <= 35 /\ frames_quiet h) ->
  exists (m : metric) (t : Q),
    process_recursive_task h (recursion_engine h) st "fibonacci" n opt =
    ({| request_counter := request_counter st + 1;
        error_counter := error_counter st;
        recursion_depth_metrics := (recursion_depth_metrics st ++ [m])%list;
        clock_reads := (clock_reads st + 3)%nat |},
     Success (Number (fib_spec (Z.to_nat n))) t
             (traced_peak h (request_counter st + 1)) n
             (request_counter st + 1)) /\
    success m = true /\ execution_time m = t /\
    memory_usage m = traced_peak h (request_counter st + 1) /\
    recursion_depth m = n.
Proof.
  intros Hn Hmode.
  assert (Hc : compute h (recursion_engine h) "fibonacci" n opt =
               Return (Number (fib_spec (Z.to_nat n)))).
  { unfold compute. destruct (Z.leb_spec n 0); [lia|].
    destruct Hmode as [-> | [Hle Hq]].
    - cbn [negb andb]. rewrite andb_false_r.
      cbn [String.eqb Ascii.eqb Bool.eqb recursion_engine fibonacci_iterative].
      now rewrite fibonacci_iterative_spec by lia.
    - destruct opt.
      + rewrite andb_false_r.
        cbn [String.eqb Ascii.eqb Bool.eqb recursion_engine
               fibonacci_iterative].
        now rewrite fibonacci_iterative_spec by lia.
      + destruct (Z.gtb_spec n 10000); [lia|]. cbn [andb].
        cbn [String.eqb Ascii.eqb Bool.eqb recursion_engine fibonacci_naive].
        destruct (Z.gtb_spec n 35); [lia|].
        now rewrite fibonacci_naive_spec by (assumption || lia). }
  rewrite (process_recursive_task_success h _ st _ _ _ _ Hc). cbn zeta.
  do 2 eexists. split.
  - replace (clock_reads st + 3)%nat with (S (S (S (clock_reads st)))) by lia.
    reflexivity.
  - repeat split.
Qed.

(** X12.  A tree traversal dispatch with [n > 0] builds the chain of
    [n + 1] nodes first, in either mode.  Optimized, it returns the
    [n + 1] labels of the chain from the root down, [node_n], ...,
    [node_1], [leaf], when the [n + 1] nested calls of the generator fit on
    the stack of the dispatch, and ends in the interpreter's
    [RecursionError] when they do not.  Naive with [n <= 500], it returns
    the same labels when the stack has room for one call more than those
    [n + 1]. *)
Theorem dispatch_tree_traversal (n : Z) :
  0 < n ->
  compute h (recursion_engine h) "tree_traversal" n true =
  (if n + 1 <=? recursion_limit h - stack_depth h
   then Return (Values (chain_labels (Z.to_nat n)))
   else Raise (RecursionError (stack_overflow h))) /\
  (n <= 500 -> n + 1 < recursion_limit h - stack_depth h ->
   compute h (recursion_engine h) "tree_traversal" n false =
   Return (Values (chain_labels (Z.to_nat n)))) /\
  len (chain_labels (Z.to_nat n)) = n + 1.
Proof.
  intros Hn. split; [|split].
  - unfold compute. destruct (Z.leb_spec n 0); [lia|].
    rewrite andb_false_r. cbn [String.eqb Ascii.eqb Bool.eqb].
    rewrite generate_deep_tree_cases.
    replace (Z.max 0 n + 1) with (n + 1) by lia.
    destruct (n + 1 <=? recursion_limit h - stack_depth h); [|reflexivity].
    cbn [bind recursion_engine tree_traversal_iterative].
    rewrite tree_traversal_iterative_spec by apply deep_chain_truthy.
    now rewrite deep_chain_preorder.
  - intros Hle Hroom. unfold compute. destruct (Z.leb_spec n 0); [lia|].
    destruct (Z.gtb_spec n 10000); [lia|]. cbn [andb].
    cbn [String.eqb Ascii.eqb Bool.eqb].
    rewrite generate_deep_tree_cases.
    replace (Z.max 0 n + 1) with (n + 1) by lia.
    destruct (Z.leb_spec (n + 1) (recursion_limit h - stack_depth h));
      [|lia].
    cbn [bind]. destruct (Z.gtb_spec n 500); [lia|].
    cbn [recursion_engine tree_traversal_naive].
    unfold RecursiveAlgorithms.tree_traversal_naive.
    rewrite tree_traversal_naive_at_spec.
    + now rewrite deep_chain_preorder.
    + lia.
    + rewrite deep_chain_height. lia.
  - unfold len. rewrite chain_labels_length. lia.
Qed.

End DispatchResults.

Lemma dispatch_fibonacci_witness :
  exists (m : OptimizedRecursion.metric) (t : Q),
    OptimizedRecursion.process_recursive_task cpython
      (OptimizedRecursion.recursion_engine cpython)
      (OptimizedRecursion.init 0) "fibonacci" 30 false =
    ({| OptimizedRecursion.request_counter := 0 + 1;
        OptimizedRecursion.error_counter := 0;
        OptimizedRecursion.recursion_depth_metrics := [m];
        OptimizedRecursion.clock_reads := 3 |},
     OptimizedRecursion.Success
       (OptimizedRecursion.Number (fib_spec (Z.to_nat 30))) t
       (traced_peak cpython (0 + 1)) 30 (0 + 1)) /\
    OptimizedRecursion.success m = true /\
    OptimizedRecursion.execution_time m = t /\
    OptimizedRecursion.memory_usage m = traced_peak cpython (0 + 1) /\
    OptimizedRecursion.recursion_depth m = 30.
Proof.
  apply (dispatch_fibonacci cpython (OptimizedRecursion.init 0) 30 false);
    [lia | right; split; [lia | exact cpython_quiet]].
Defined.

Lemma dispatch_tree_traversal_witness :
  OptimizedRecursion.compute cpython
    (OptimizedRecursion.recursion_engine cpython) "tree_traversal" 3 true =
  Return (OptimizedRecursion.Values (chain_labels (Z.to_nat 3))) /\
  OptimizedRecursion.compute cpython
    (OptimizedRecursion.recursion_engine cpython) "tree_traversal" 3 false =
  Return (OptimizedRecursion.Values (chain_labels (Z.to_nat 3))) /\
  len (chain_labels (Z.to_nat 3)) = 3 + 1.
Proof.
  destruct (dispatch_tree_traversal cpython 3) as (Hopt & Hnaive & Hlen);
    [lia|].
  split; [exact Hopt|]. split; [|exact Hlen].
  apply Hnaive; [lia | reflexivity].
Defined.

(** ** Batches, counters and the metric endpoints *)

Section Counters.

Import OptimizedRecursion.

Variable h : host.
Variable E : engine.

(** A dispatch takes the next id and echoes the depth it was given. *)
Lemma process_recursive_task_echo
  (st : state) (algo : string) (n : Z) (opt : bool) :
  let out := snd (process_recursive_task h E st algo n opt) in
  response_id out = request_counter st + 1 /\ response_depth out = n /\
  succeeded out = outcome_eqb (outcome_of h E algo n opt) Succeeded.
Proof.
  unfold outcome_of. cbn zeta.
  destruct (compute h E algo n opt) as [res|e] eqn:Hc.
  - rewrite (process_recursive_task_success h E st _ _ _ _ Hc). now cbn.
  - destruct (is_recursion_error e) eqn:He.
    + rewrite (process_recursive_task_recursion_error h E st _ _ _ _ Hc He).
      now cbn.
    + rewrite (process_recursive_task_other_error h E st _ _ _ _ Hc He).
      now cbn.
Qed.

Lemma process_multiple_requests_cons (st : state) (r : request)
  (rs : list request) :
  process_multiple_requests h E st (r :: rs) =
  let done := process_recursive_task h E st (req_algorithm r) (req_depth r)
                (optimized_of r) in
  let rest := process_multiple_requests h E (fst done) rs in
  (fst rest, snd done :: snd rest).
Proof.
  cbn [process_multiple_requests]. unfold optimized_of.
  destruct (process_recursive_task h E st _ _ _) as [st1 out].
  cbn [fst snd]. now destruct (process_multiple_requests h E st1 rs).
Qed.

Lemma process_multiple_requests_nth (rs : list request) :
  forall (st : state) (i : nat) (r : request),
    nth_error rs i = Some r ->
    exists out : response,
      nth_error (snd (process_multiple_requests h E st rs)) i = Some out /\
      response_id out = request_counter st + Z.of_nat i + 1 /\
      response_depth out = req_depth r /\
      succeeded out =
      outcome_eqb
        (outcome_of h E (req_algorithm r) (req_depth r) (optimized_of r))
        Succeeded.
Proof.
  induction rs as [|r0 rs IH]; intros st i r Hnth; [now destruct i|].
  rewrite process_multiple_requests_cons. cbn zeta. cbn [snd].
  destruct i as [|i].
  - injection Hnth as ->. eexists. split; [reflexivity|].
    destruct (process_recursive_task_echo st (req_algorithm r) (req_depth r)
                (optimized_of r)) as (Hid & Hdepth & Hok).
    cbn zeta in *. rewrite Hid, Hdepth, Hok. repeat split. lia.
  - cbn [nth_error] in *.
    destruct (IH (fst (process_recursive_task h E st (req_algorithm r0)
                         (req_depth r0) (optimized_of r0))) i r Hnth)
      as (out & Hout & Hid & Hrest).
    exists out. split; [exact Hout|]. split; [|exact Hrest].
    rewrite Hid.
    destruct (process_recursive_task_effect h E st (req_algorithm r0)
                (req_depth r0) (optimized_of r0)) as [-> _]. lia.
Qed.

(** X13.  [process_multiple_requests] answers every request, in the order
    of the list: the answer at position [i] belongs to the request at
    position [i], echoes its depth, carries the id [i + 1] places after the
    counter the batch started from, and is a success exactly when the body
    of that dispatch returns. *)
Theorem process_multiple_requests_in_order
  (st : state) (rs : list request) (i : nat) (r : request) :
  nth_error rs i = Some r ->
  List.length (snd (process_multiple_requests h E st rs)) = List.length rs /\
  exists out : response,
    nth_error (snd (process_multiple_requests h E st rs)) i = Some out /\
    response_id out = request_counter st + Z.of_nat i + 1 /\
    response_depth out = req_depth r /\
    succeeded out =
    outcome_eqb
      (outcome_of h E (req_algorithm r) (req_depth r) (optimized_of r))
      Succeeded.
Proof.
  intros Hnth. split; [|now apply process_multiple_requests_nth].
  clear. revert st. induction rs as [|r0 rs IH]; intros st; [reflexivity|].
  rewrite process_multiple_requests_cons. cbn zeta. cbn [snd List.length].
  now rewrite IH.
Qed.

Lemma filter_length_le {A : Type} (f : A -> bool) (l : list A) :
  len (filter f l) <= len l.
Proof. unfold len. pose proof (filter_length_le f l). lia. Qed.

Lemma filter_partition_length {A : Type} (f : A -> bool) (l : list A) :
  len (filter f l) + len (filter (fun a => negb (f a)) l) = len l.
Proof.
  unfold len. induction l as [|a l IH]; [reflexivity|].
  cbn [filter]. destruct (f a); cbn [negb List.length]; lia.
Qed.

(** A share of a positive whole, as a percentage. *)
Lemma percentage_bounds (part whole : Z) :
  0 <= part <= whole -> 0 < whole ->
  (0 <= inject_Z part / inject_Z whole * 100 <= 100)%Q.
Proof.
  intros Hp Hw. destruct whole as [|w|w]; try lia.
  unfold Qle, Qdiv, Qmult, Qinv, inject_Z. cbn. split; nia.
Qed.

Lemma reachable_counters_ok (st : state) :
  reachable h E st -> counters_ok st.
Proof.
  induction 1 as [k|st algo n opt _ IH|st _ IH]; unfold counters_ok in *.
  - cbn. lia.
  - destruct IH as (Herr & Hfail & Hlen).
    destruct (compute h E algo n opt) as [res|e] eqn:Hc.
    + rewrite (process_recursive_task_success h E st _ _ _ _ Hc).
      cbn zeta. cbn [fst error_counter request_counter recursion_depth_metrics].
      rewrite filter_app. unfold len in *. rewrite !length_app.
      cbn [filter success negb app List.length]. lia.
    + destruct (is_recursion_error e) eqn:He.
      * rewrite (process_recursive_task_recursion_error h E st _ _ _ _ Hc He).
        cbn zeta.
        cbn [fst error_counter request_counter recursion_depth_metrics].
        rewrite filter_app. unfold len in *. rewrite !length_app.
        cbn [filter success negb app List.length]. lia.
      * rewrite (process_recursive_task_other_error h E st _ _ _ _ Hc He).
        cbn zeta.
        cbn [fst error_counter request_counter recursion_depth_metrics]. lia.
  - destruct IH as (Herr & Hfail & Hlen). cbn. lia.
Qed.

(** X14.  In every state a dispatcher can reach by dispatches and by
    clearing its metrics, the error counter is at most the request counter,
    the metrics held are at most as many as the requests made, and the
    statistics are coherent: successes and failures add up to the metrics
    held, the failures are at most [total_requests], and the error rate
    lies between 0 and 100. *)
Theorem reachable_stats_coherent (st : state) :
  reachable h E st ->
  let s := get_performance_stats st in
  0 <= error_counter st <= request_counter st /\
  successful_requests s + failed_requests s = len (recursion_depth_metrics st)
  /\
  successful_requests s + failed_requests s <= total_requests s /\
  0 <= failed_requests s <= total_requests s /\
  (0 <= error_rate s <= 100)%Q.
Proof.
  intros Hr. destruct (reachable_counters_ok st Hr) as (Herr & Hfail & Hlen).
  unfold get_performance_stats.
  cbn [total_requests successful_requests failed_requests error_rate].
  pose proof (filter_partition_length success (recursion_depth_metrics st))
    as Hsum.
  set (failed := len (filter (fun m => negb (success m))
                        (recursion_depth_metrics st))) in *.
  assert (0 <= failed) by (unfold failed, len; lia).
  split; [exact Herr|]. split; [exact Hsum|]. split; [lia|]. split; [lia|].
  destruct (Z.gtb_spec (request_counter st) 0).
  - apply percentage_bounds; lia.
  - split; [apply Qle_refl | discriminate].
Qed.

(** X15.  Clearing the metrics forgets the records but not the counters:
    right after it the statistics report no successes, no failures, zero
    times and a zero error rate, yet the same [total_requests] as before,
    and the next dispatch takes the id after the last one given. *)
Theorem clear_metrics_keeps_counters
  (st : state) (algo : string) (n : Z) (opt : bool) :
  let s := get_performance_stats (clear_metrics st) in
  total_requests s = request_counter st /\
  successful_requests s = 0 /\ failed_requests s = 0 /\
  (error_rate s == 0)%Q /\
  avg_execution_time s = 0%Q /\ max_execution_time s = 0%Q /\
  App.get_metrics (clear_metrics st) = ([], 0) /\
  response_id
    (snd (process_recursive_task h E (clear_metrics st) algo n opt))
  = request_counter st + 1.
Proof.
  cbn zeta. unfold get_performance_stats, clear_metrics, App.get_metrics.
  cbn [total_requests successful_requests failed_requests error_rate
       avg_execution_time max_execution_time recursion_depth_metrics
       request_counter filter map len List.length skipn Qmaximum].
  repeat split.
  - destruct (request_counter st >? 0); [|reflexivity].
    unfold Qeq, Qdiv, Qmult, Qinv, inject_Z. cbn. lia.
  - now destruct (process_recursive_task_echo
                    {| request_counter := request_counter st;
                       error_counter := error_counter st;
                       recursion_depth_metrics := [];
                       clock_reads := clock_reads st |} algo n opt)
      as [-> _].
Qed.

(** X16.  The metrics endpoint returns the newest records, oldest first: at
    most 100 of them, all of them when fewer are held, the ones at the end
    of the list otherwise, together with the number of records held. *)
Theorem get_metrics_recent (st : state) :
  let recent := fst (App.get_metrics st) in
  (exists older : list metric,
      recursion_depth_metrics st = (older ++ recent)%list) /\
  len recent = Z.min 100 (len (recursion_depth_metrics st)) /\
  snd (App.get_metrics st) = len (recursion_depth_metrics st) /\
  (len (recursion_depth_metrics st) <= 100 ->
   recent = recursion_depth_metrics st).
Proof.
  cbn zeta. unfold App.get_metrics. cbn [fst snd].
  set (ms := recursion_depth_metrics st). split; [|split; [|split]].
  - exists (firstn (List.length ms - 100) ms). now rewrite firstn_skipn.
  - unfold len. rewrite length_skipn. lia.
  - reflexivity.
  - unfold len. intros Hle.
    now replace (List.length ms - 100)%nat with O by lia.
Qed.

End Counters.

Lemma process_multiple_requests_in_order_witness :
  List.length
    (snd (OptimizedRecursion.process_multiple_requests cpython cpython_engine
            (OptimizedRecursion.init 0) sample_requests))
  = List.length sample_requests /\
  exists out : OptimizedRecursion.response,
    nth_error
      (snd (OptimizedRecursion.process_multiple_requests cpython
              cpython_engine (OptimizedRecursion.init 0) sample_requests)) 1
    = Some out /\
    response_id out = 0 + Z.of_nat 1 + 1 /\
    response_depth out = 36 /\
    OptimizedRecursion.succeeded out = false.
Proof.
  apply (process_multiple_requests_in_order cpython cpython_engine
           (OptimizedRecursion.init 0) sample_requests 1
           {| OptimizedRecursion.req_algorithm := "fibonacci";
              OptimizedRecursion.req_depth := 36;
              OptimizedRecursion.req_optimized := Some false |}).
  reflexivity.
Defined.

Lemma reachable_stats_coherent_witness :
  let st :=
    fst (OptimizedRecursion.process_recursive_task cpython cpython_engine
           (OptimizedRecursion.init 0) "fibonacci" 36 false) in
  let s := OptimizedRecursion.get_performance_stats st in
  0 <= OptimizedRecursion.error_counter st
    <= OptimizedRecursion.request_counter st /\
  OptimizedRecursion.successful_requests s
  + OptimizedRecursion.failed_requests s
  = len (OptimizedRecursion.recursion_depth_metrics st) /\
  OptimizedRecursion.successful_requests s
  + OptimizedRecursion.failed_requests s
  <= OptimizedRecursion.total_requests s /\
  0 <= OptimizedRecursion.failed_requests s
    <= OptimizedRecursion.total_requests s /\
  (0 <= OptimizedRecursion.error_rate s <= 100)%Q.
Proof.
  apply (reachable_stats_coherent cpython cpython_engine).
  apply reach_dispatch, reach_init.
Defined.

Lemma get_metrics_recent_witness :
  fst (App.get_metrics (OptimizedRecursion.init 0)) =
  OptimizedRecursion.recursion_depth_metrics (OptimizedRecursion.init 0).
Proof.
  apply (proj2 (proj2 (proj2 (get_metrics_recent (OptimizedRecursion.init 0))))).
  vm_compute. discriminate.
Defined.

(** ** The pathfinding dispatch *)

Section PathfindingDispatch.

Import OptimizedRecursion.

Lemma In_east (c : cell) (k : nat) :
  forall x y : Z,
    In c (east x y k) <-> fst c = x /\ y <= snd c < y + Z.of_nat k.
Proof.
  induction k as [|k IH]; intros x y; cbn [east In].
  - lia.
  - rewrite IH. destruct c as [cx cy]. cbn [fst snd]. split.
    + intros [[= <- <-] | H]; lia.
    + intros [-> H]. destruct (Z.eq_dec cy y) as [->|]; [now left | right; lia].
Qed.

Lemma In_south (c : cell) (k : nat) :
  forall x y : Z,
    In c (south x y k) <-> snd c = y /\ x <= fst c < x + Z.of_nat k.
Proof.
  induction k as [|k IH]; intros x y; cbn [south In].
  - lia.
  - rewrite IH. destruct c as [cx cy]. cbn [fst snd]. split.
    + intros [[= <- <-] | H]; lia.
    + intros [-> H]. destruct (Z.eq_dec cx x) as [->|]; [now left | right; lia].
Qed.

Lemma NoDup_east (k : nat) : forall x y : Z, NoDup (east x y k).
Proof.
  induction k as [|k IH]; intros x y; cbn [east]; constructor; [|apply IH].
  rewrite In_east. cbn [fst snd]. lia.
Qed.

Lemma NoDup_south (k : nat) : forall x y : Z, NoDup (south x y k).
Proof.
  induction k as [|k IH]; intros x y; cbn [south]; constructor; [|apply IH].
  rewrite In_south. cbn [fst snd]. lia.
Qed.

Lemma is_walk_south (k : nat) : forall x y : Z, is_walk (south x y k) = true.
Proof.
  induction k as [|k IH]; intros x y; [reflexivity|].
  cbn [south]. destruct k as [|k]; [reflexivity|].
  change (adjacent (x, y) (x + 1, y) && is_walk (south (x + 1) y (S k)) = true).
  rewrite IH, andb_true_r. unfold adjacent. cbn [fst snd].
  apply Z.eqb_eq. lia.
Qed.

Lemma is_walk_east (k : nat) :
  forall (x y : Z) (rest : list cell),
    is_walk (east x y k ++ (x, y + Z.of_nat k) :: rest) =
    is_walk ((x, y + Z.of_nat k) :: rest).
Proof.
  induction k as [|k IH]; intros x y rest.
  - reflexivity.
  - cbn [east app].
    replace (y + Z.of_nat (S k)) with (y + 1 + Z.of_nat k) by lia.
    rewrite <- IH. destruct k as [|k].
    + cbn [east app is_walk]. unfold adjacent at 1. cbn [fst snd].
      replace (Z.abs (x - x) + Z.abs (y - (y + 1 + Z.of_nat 0)) =? 1)
        with true by (symmetry; apply Z.eqb_eq; lia).
      reflexivity.
    + cbn [east app is_walk]. unfold adjacent at 1. cbn [fst snd].
      replace (Z.abs (x - x) + Z.abs (y - (y + 1)) =? 1)
        with true by (symmetry; apply Z.eqb_eq; lia).
      reflexivity.
Qed.

Lemma last_app_cons {A : Type} (l1 l2 : list A) (a d : A) :
  last (l1 ++ a :: l2) d = last (a :: l2) d.
Proof.
  induction l1 as [|b l1 IH]; [reflexivity|].
  cbn [app]. destruct (l1 ++ a :: l2)%list eqn:Heq.
  - now destruct l1.
  - rewrite <- IH. reflexivity.
Qed.

Lemma last_south (k : nat) :
  forall (x y : Z) (d : cell),
    last (south x y (S k)) d = (x + Z.of_nat k, y).
Proof.
  induction k as [|k IH]; intros x y d.
  - cbn. f_equal. lia.
  - change (last (south (x + 1) y (S k)) d = (x + Z.of_nat (S k), y)).
    rewrite IH. f_equal. lia.
Qed.

Lemma length_east (k : nat) : forall x y, List.length (east x y k) = k.
Proof. induction k; intros; cbn [east List.length]; auto. Qed.

Lemma length_south (k : nat) : forall x y, List.length (south x y k) = k.
Proof. induction k; intros; cbn [south List.length]; auto. Qed.

Lemma In_corner_walk (n : nat) (c : cell) :
  In c (corner_walk n) ->
  (fst c = 0 /\ 0 <= snd c < Z.of_nat n) \/
  (snd c = Z.of_nat n /\ 0 <= fst c <= Z.of_nat n).
Proof.
  unfold corner_walk. intros H. apply in_app_or in H as [H | H].
  - apply In_east in H. left. lia.
  - apply In_south in H. right. lia.
Qed.

Lemma cell_free_cell_at (g : grid) (i j : Z) :
  cell_free g (i, j) =
  in_bounds g (i, j) &&
  match cell_at g i j with
  | Some v => negb (v =? 1)
  | None => false
  end.
Proof.
  unfold cell_free, cell_at. cbn [fst snd]. now destruct (index g i).
Qed.

(** The way along row 0 and down the last column of a generated grid is
    free: the obstacles stand in the middle column, on odd rows above the
    last one. *)
Lemma corner_walk_free (n : nat) :
  forallb (cell_free (generate_grid (Z.of_nat n + 1))) (corner_walk n) = true.
Proof.
  apply forallb_forall. intros [i j] Hc.
  apply In_corner_walk in Hc. cbn [fst snd] in Hc.
  destruct (generate_grid_cells (Z.of_nat n + 1) i j)
    as (Hlen & _ & Hhd & Hcell); try lia.
  rewrite cell_free_cell_at, Hcell. unfold in_bounds. cbn [fst snd].
  rewrite Hlen, Hhd.
  replace (Z.odd i && (i <? Z.of_nat n + 1 - 1)
           && (j =? (Z.of_nat n + 1) / 2)) with false.
  - cbn [negb Z.eqb]. rewrite andb_true_r.
    repeat (apply andb_true_intro; split); lia.
  - symmetry. apply not_true_is_false. intros H.
    apply andb_prop in H as [H Hj]. apply andb_prop in H as [Hodd Hi].
    apply Z.eqb_eq in Hj. apply Z.ltb_lt in Hi.
    destruct Hc as [[-> _] | [-> Hrow]]; [discriminate Hodd|].
    apply Z.odd_spec in Hodd as [k ->].
    Z.div_mod_to_equations. lia.
Qed.

Lemma corner_walk_simple (n : nat) :
  simple_free_walk (generate_grid (Z.of_nat n + 1)) (0, 0)
    (Z.of_nat n, Z.of_nat n) (corner_walk n) /\
  len (corner_walk n) = 2 * Z.of_nat n + 1.
Proof.
  split; [repeat split|].
  - unfold corner_walk. now destruct n.
  - unfold corner_walk. cbn [south]. rewrite last_app_cons.
    change (last (south 0 (Z.of_nat n) (S n)) (0, 0)
            = (Z.of_nat n, Z.of_nat n)).
    now rewrite last_south.
  - unfold corner_walk. cbn [south].
    change (Z.of_nat n) with (0 + Z.of_nat n) at 1.
    rewrite is_walk_east.
    change (is_walk (south 0 (Z.of_nat n) (S n)) = true).
    apply is_walk_south.
  - apply corner_walk_free.
  - unfold corner_walk. apply NoDup_app;
      [apply NoDup_east | apply NoDup_south |].
    intros c He Hs. apply In_east in He. apply In_south in Hs. lia.
  - unfold corner_walk, len.
    rewrite length_app, length_east, length_south. lia.
Qed.

Variable h : host.

(** X17.  A pathfinding dispatch with a valid depth [n] always succeeds:
    on the generated grid of side [m = min(n, 20)] the search never raises,
    and the path it returns leads from [(0, 0)] to [(m - 1, m - 1)] over
    free cells and has exactly [2 * m - 1] cells, the fewest possible. *)
Theorem dispatch_pathfinding (n : Z) (opt : bool) :
  0 < n -> n <= 10000 \/ opt = true ->
  exists p : list cell,
    compute h (recursion_engine h) "pathfinding" n opt = Return (Path p) /\
    simple_free_walk (generate_grid (Z.min n 20)) (0, 0)
      (Z.min n 20 - 1, Z.min n 20 - 1) p /\
    len p = 2 * Z.min n 20 - 1.
Proof.
  intros Hn Hvalid.
  set (m := Z.min n 20). set (k := Z.to_nat (m - 1)).
  assert (Hm : m = Z.of_nat k + 1) by (unfold k, m; lia).
  destruct (corner_walk_simple k) as [Hwalk Hlen].
  rewrite <- Hm in Hwalk. replace (Z.of_nat k) with (m - 1) in Hwalk by lia.
  destruct (generate_grid_cells m 0 0) as (Hrows & Hrect & Hcols & _);
    try (unfold m; lia).
  assert (Hsmall : len (generate_grid m) * len (hd [] (generate_grid m))
                   <= 1000) by (rewrite Hrows, Hcols; unfold m; nia).
  destruct Hwalk as (Hhd & Hlast & Hw & Hfree & Hnd).
  destruct (corner_walk k) as [|c w'] eqn:Hcw; [discriminate Hhd|].
  injection Hhd as ->.
  destruct (pathfinding_naive_at_shortest (generate_grid m) Hrect Hsmall w'
              0 0 (m - 1) (m - 1) [] 0 1002)
    as (p & Hat & Hne & Hle);
    try assumption;
    [constructor | intros c [] | reflexivity | lia | intros c _ [] |].
  assert (Hp : RecursiveAlgorithms.pathfinding_naive (generate_grid m) 0 0
                 (m - 1) (m - 1) = Return p)
    by (pose proof (pathfinding_naive_defined (generate_grid m) 0 0 (m - 1)
                      (m - 1)); congruence).
  assert (Hsimple : simple_free_walk (generate_grid m) (0, 0)
                      (m - 1, m - 1) p).
  { destruct (pathfinding_naive_at_sound _ _ _ _ _ _ _ _ _ Hat Hne)
      as (q & -> & Hl & Hwq & Hf & Hn' & _).
    cbn [app]. repeat split; assumption. }
  cbn [app] in Hle.
  exists p. split; [|split; [exact Hsimple|]].
  - unfold compute. destruct (Z.leb_spec n 0); [lia|].
    replace ((n >? 10000) && negb opt) with false
      by (destruct Hvalid as [Hle' | ->];
          [destruct (Z.gtb_spec n 10000); [lia | reflexivity]
          | now rewrite andb_false_r]).
    cbn [String.eqb Ascii.eqb Bool.eqb recursion_engine pathfinding_naive].
    replace (Z.min (n - 1) 19) with (m - 1) by (unfold m; lia).
    fold m. now rewrite Hp.
  - destruct Hsimple as (Hhd' & Hlast' & Hw' & _).
    destruct p as [|c q]; [discriminate Hhd'|]. injection Hhd' as ->.
    pose proof (walk_reach q (0, 0) Hw') as Hreach.
    replace (last q (0, 0)) with (m - 1, m - 1) in Hreach
      by (rewrite <- Hlast'; now destruct q).
    cbn [fst snd] in Hreach. fold m.
    unfold len, cell in Hle, Hlen, Hreach |- *. cbn [List.length] in *. lia.
Qed.

End PathfindingDispatch.

Lemma dispatch_pathfinding_witness :
  exists p : list cell,
    OptimizedRecursion.compute cpython (OptimizedRecursion.recursion_engine cpython)
      "pathfinding" 12 false = Return (OptimizedRecursion.Path p) /\
    simple_free_walk (OptimizedRecursion.generate_grid (Z.min 12 20)) (0, 0)
      (Z.min 12 20 - 1, Z.min 12 20 - 1) p /\
    len p = 2 * Z.min 12 20 - 1.
Proof.
  apply (dispatch_pathfinding cpython 12 false); [lia | left; lia].
Defined.

(** ** The memo moves the ceiling of the memoized variant *)

Section WarmMemo.

Import RecursiveAlgorithms.

Variable a : Z.
Hypothesis a_pos : 1 <= a.

(** The recursion above two neighbouring keys that the memo holds. *)
Lemma fibonacci_memoized_at_warm (fuel : nat) :
  forall (memo : memo_table) (n depth : Z),
    memo_consistent memo ->
    ZMap.find a memo <> None -> ZMap.find (a - 1) memo <> None ->
    a - 1 <= n -> depth <= 1000 -> (a < n -> depth + (n - a) <= 1000) ->
    (Z.to_nat (n - a) <= fuel)%nat ->
    exists memo' : memo_table,
      fibonacci_memoized_at fuel memo n depth =
      Some (Return (fib_spec (Z.to_nat n)), memo') /\
      memo_consistent memo' /\ memo_extends memo memo'.
Proof.
  induction fuel as [|fuel IH]; intros memo n depth Hc Ha Ha1 Hn Hd Hdn Hf;
    cbn [fibonacci_memoized_at];
    (destruct (Z.gtb_spec depth 1000); [lia|]);
    (destruct (Z.ltb_spec n 0); [lia|]);
    (destruct (ZMap.find n memo) as [v|] eqn:Hfind;
     [exists memo; rewrite (Hc n v) by (assumption || lia);
      split; [reflexivity|]; split; [assumption | apply memo_extends_refl]|]);
    assert (Hgt : a < n)
      by (destruct (Z.eq_dec n a) as [->|]; [congruence|];
          destruct (Z.eq_dec n (a - 1)) as [->|]; [congruence | lia]);
    (destruct (Z.leb_spec n 1); [lia|]).
  - lia.
  - destruct (IH memo (n - 1) (depth + 1) Hc Ha Ha1)
      as (memo1 & -> & Hc1 & He1); try lia.
    assert (Ha' : ZMap.find a memo1 <> None).
    { destruct (ZMap.find a memo) as [v|] eqn:Hv; [|congruence].
      rewrite (He1 a v Hv). discriminate. }
    assert (Ha1' : ZMap.find (a - 1) memo1 <> None).
    { destruct (ZMap.find (a - 1) memo) as [v|] eqn:Hv; [|congruence].
      rewrite (He1 (a - 1) v Hv). discriminate. }
    destruct (IH memo1 (n - 2) (depth + 1) Hc1 Ha' Ha1')
      as (memo2 & -> & Hc2 & He2); try lia.
    assert (Hfib : fib_spec (Z.to_nat (n - 1)) + fib_spec (Z.to_nat (n - 2))
                   = fib_spec (Z.to_nat n)).
    { replace (Z.to_nat n) with (S (S (Z.to_nat (n - 2)))) by lia.
      rewrite fib_spec_step.
      now replace (Z.to_nat (n - 1)) with (S (Z.to_nat (n - 2))) by lia. }
    cbn zeta. rewrite Hfib. eexists. split; [reflexivity|]. split.
    + intros k v Hk. destruct (Z.eq_dec n k) as [<-|Hne].
      * rewrite ZMapFacts.add_eq_o by reflexivity. now intros [= <-].
      * rewrite ZMapFacts.add_neq_o by assumption. now apply Hc2.
    + intros k v Hk. destruct (Z.eq_dec n k) as [<-|Hne].
      * congruence.
      * rewrite ZMapFacts.add_neq_o by assumption. now apply He2, He1.
Qed.

(** X18.  The depth check of [fibonacci_memoized] counts from the keys the
    memo already holds: when a memo of Fibonacci numbers holds two
    neighbouring keys [a - 1] and [a], every [n] from [a] to [a + 500] is
    answered with F(n), however large [a] is, the calls nesting no deeper
    than [n - a], and the memo stays a memo of Fibonacci numbers that
    keeps its entries. *)
Theorem fibonacci_memoized_warm (memo : memo_table) (n : Z) :
  memo_consistent memo ->
  ZMap.find a memo <> None -> ZMap.find (a - 1) memo <> None ->
  a <= n <= a + 500 ->
  exists memo' : memo_table,
    fibonacci_memoized memo n = (Return (fib_spec (Z.to_nat n)), memo') /\
    memo_consistent memo' /\ memo_extends memo memo'.
Proof.
  intros Hc Ha Ha1 Hn.
  destruct (fibonacci_memoized_at_warm 1002 memo n 0 Hc Ha Ha1)
    as (memo' & Hat & Hc' & He); try lia.
  exists memo'. rewrite fibonacci_memoized_defined in Hat.
  injection Hat as ->. auto.
Qed.

End WarmMemo.

Lemma warm_memo_consistent : memo_consistent warm_memo.
Proof.
  intros k v Hk. unfold warm_memo.
  rewrite !ZMapFacts.add_o, ZMapFacts.empty_o.
  destruct (Z_as_OT.eq_dec 2 k) as [<-|_]; [now intros [= <-]|].
  destruct (Z_as_OT.eq_dec 1 k) as [<-|_]; [now intros [= <-]|].
  discriminate.
Qed.

Lemma fibonacci_memoized_warm_witness :
  exists memo' : memo_table,
    RecursiveAlgorithms.fibonacci_memoized warm_memo 502 =
    (Return (fib_spec (Z.to_nat 502)), memo') /\
    memo_consistent memo' /\ memo_extends warm_memo memo'.
Proof.
  apply (fibonacci_memoized_warm 2); try lia;
    [exact warm_memo_consistent | vm_compute; discriminate
    | vm_compute; discriminate].
Defined.
